(** * The IAM credential report resource, verified

    A shallow embedding of [aws/resource_aws_iam_credential_report.go]:
    the CSV decoder [parseCsvCredentialReport], the virtual-MFA
    enrichment, the projection [flattenCredentialReport] and the
    create/read/update/delete operations of the resource.

    Conventions.
    - A Go [string] is a [string] (a sequence of bytes); a [[]byte] is a
      [list ascii].
    - A Go [int] that holds a length or an index is a [nat]: such a value
      is bounded by the size of an allocated object, so it never wraps.
    - [map[string]T] is a [gmap string T]; a missing key reads as the zero
      value of [T], which is written out at every lookup.
    - A slice index [line[i]] panics out of range; the model returns
      [None] there and the callers turn it into the outcome [Panic]. *)

From Stdlib Require Import Ascii String.
From stdpp Require Import base option list strings gmap fin_maps.

Local Open Scope string_scope.
Local Open Scope list_scope.
Local Open Scope nat_scope.

Abbreviation bytes := (list ascii).

(** [string(b)] and [[]byte(s)]. *)
Definition string_of_bytes (b : bytes) : string := string_of_list_ascii b.
Definition bytes_of_string (s : string) : bytes := list_ascii_of_string s.

(** ** The reader of Go's [encoding/csv]

    The decoder calls [csv.NewReader(bytes.NewReader(content))] and then
    [Read] once and [ReadAll] once, with the reader's default settings:
    [Comma = ','], no comment character, [FieldsPerRecord = 0],
    [LazyQuotes = false], [TrimLeadingSpace = false].  The package belongs
    to Go's standard library, not to the repository; this module follows
    its functions [readLine], [readRecord] and [ReadAll] under these
    settings, statement by statement.

    - The line and column numbers that the library stores inside a
      [ParseError] are left out: only the kind of error is kept.
    - The only read error of an in-memory reader is [io.EOF], so the
      library's [errRead] is a boolean, and inside a quoted field, where
      the library resets it, it is dropped.
    - The library collects the fields of a record in [recordBuffer], cut
      at [fieldIndexes]; here they are the list [dst].
    - The loops of the library are fixpoints on fuel, and [None] is a
      loop that has not ended within its fuel.  [readRecord] and [ReadAll]
      start their loops with more fuel than there is unread input, which
      is always enough ([readRecord_total], [ReadAll_loop_total]). *)
Module Csv.

Definition LF : ascii := "010"%char.
Definition CR : ascii := "013"%char.
Definition Comma : ascii := ","%char.
Definition Quote : ascii := "034"%char.

Inductive error : Set :=
| EOF            (* io.EOF *)
| ErrBareQuote   (* bare quote in a non-quoted field *)
| ErrQuote       (* extraneous or missing quote in a quoted field *)
| ErrFieldCount. (* wrong number of fields *)

#[global] Instance error_eq_dec : EqDecision error.
Proof. solve_decision. Defined.

Record Reader : Set := mkReader {
  r : bytes;               (* the input that is still unread *)
  FieldsPerRecord : Z      (* 0 until the first record fixes it *)
}.

Definition NewReader (content : bytes) : Reader :=
  {| r := content; FieldsPerRecord := 0 |}.

(** [bufio.Reader.ReadSlice('\n')]: the bytes up to and including the
    first line feed; when the input ends first, the rest of the input
    together with [io.EOF] (the boolean). *)
Fixpoint ReadSlice (inp : bytes) : bytes * bool * bytes :=
  match inp with
  | [] => ([], true, [])
  | c :: inp' =>
      if decide (c = LF) then ([c], false, inp')
      else let '(line, eof, rest) := ReadSlice inp' in (c :: line, eof, rest)
  end.

(** [bytes.IndexByte]. *)
Fixpoint IndexByte (b : bytes) (c : ascii) : option nat :=
  match b with
  | [] => None
  | x :: b' => if decide (x = c) then Some 0 else S <$> IndexByte b' c
  end.

Definition lengthNL (b : bytes) : nat :=
  if bool_decide (last b = Some LF) then 1 else 0.

(** [readLine]: the next line with its line feed; a final line without
    one loses a trailing carriage return and is no end of file yet;
    a trailing CR LF becomes LF. *)
Definition readLine (inp : bytes) : bytes * bool * bytes :=
  let '(line, eof, rest) := ReadSlice inp in
  let readSize := length line in
  let '(line, eof) :=
    if bool_decide (0 < readSize) && eof
    then (if bool_decide (last line = Some CR) then take (readSize - 1) line else line,
          false)
    else (line, eof) in
  let n := length line in
  let line :=
    if bool_decide (2 ≤ n) && bool_decide (line !! (n - 2) = Some CR)
       && bool_decide (line !! (n - 1) = Some LF)
    then take (n - 2) line ++ [LF]
    else line in
  (line, eof, rest).

(** The first loop of [readRecord]: read lines until one is not empty or
    the input ends. *)
Fixpoint nextLine (fuel : nat) (inp : bytes) : option (bytes * bool * bytes) :=
  match fuel with
  | 0 => None
  | S fuel =>
      let '(line, eof, rest) := readLine inp in
      if negb eof && bool_decide (length line = lengthNL line)
      then nextLine fuel rest
      else Some (line, eof, rest)
  end.

(** The loop [parseField] of [readRecord] and, inside it, the loop over
    a quoted field.  [dst] holds the fields completed so far and [cur]
    the bytes of the quoted field that is being read.  The result is the
    fields, the parse error if any, and the unread input. *)
Fixpoint parseField (fuel : nat) (line rd : bytes) (dst : list string)
  : option (list string * option error * bytes) :=
  match fuel with
  | 0 => None
  | S fuel =>
      if bool_decide (head line ≠ Some Quote) then
        (* non-quoted field *)
        let i := IndexByte line Comma in
        let field :=
          match i with
          | Some i => take i line
          | None => take (length line - lengthNL line) line
          end in
        match IndexByte field Quote with
        | Some _ => Some (dst, Some ErrBareQuote, rd)
        | None =>
            let dst := dst ++ [string_of_bytes field] in
            match i with
            | Some i => parseField fuel (drop (i + 1) line) rd dst
            | None => Some (dst, None, rd)
            end
        end
      else
        (* quoted field *)
        quotedField fuel (drop 1 line) rd dst []
  end
with quotedField (fuel : nat) (line rd : bytes) (dst : list string) (cur : bytes)
  : option (list string * option error * bytes) :=
  match fuel with
  | 0 => None
  | S fuel =>
      match IndexByte line Quote with
      | Some i =>
          (* hit the next quote *)
          let cur := cur ++ take i line in
          let line := drop (i + 1) line in
          match line with
          | c :: line' =>
              if decide (c = Quote) then
                quotedField fuel line' rd dst (cur ++ [Quote])
              else if decide (c = Comma) then
                parseField fuel line' rd (dst ++ [string_of_bytes cur])
              else if bool_decide (lengthNL line = length line) then
                Some (dst ++ [string_of_bytes cur], None, rd)
              else Some (dst, Some ErrQuote, rd)
          | [] => Some (dst ++ [string_of_bytes cur], None, rd)
          end
      | None =>
          if bool_decide (0 < length line) then
            (* end of line inside the quotes: go on with the next line *)
            let '(line', _, rd') := readLine rd in
            quotedField fuel line' rd' dst (cur ++ line)
          else
            (* the input ended inside the quotes *)
            Some (dst, Some ErrQuote, rd)
      end
  end.

(** The field-count check at the end of [readRecord]. *)
Definition checkFieldCount (fpr : Z) (dst : list string) (err : option error)
  : option error * Z :=
  if bool_decide (0 < fpr)%Z then
    (if bool_decide (Z.of_nat (length dst) ≠ fpr) && bool_decide (err = None)
     then Some ErrFieldCount else err, fpr)
  else if bool_decide (fpr = 0)%Z then (err, Z.of_nat (length dst))
  else (err, fpr).

Definition readRecord (rdr : Reader)
  : option (list string * option error * Reader) :=
  match nextLine (S (length (r rdr))) (r rdr) with
  | None => None
  | Some (line, eof, rest) =>
      if eof then
        Some ([], Some EOF, {| r := rest; FieldsPerRecord := FieldsPerRecord rdr |})
      else
        match parseField (S (length line + length rest)) line rest [] with
        | None => None
        | Some (dst, err, rest') =>
            let '(err, fpr) := checkFieldCount (FieldsPerRecord rdr) dst err in
            Some (dst, err, {| r := rest'; FieldsPerRecord := fpr |})
        end
  end.

Definition Read (rdr : Reader) : option (list string * option error * Reader) :=
  readRecord rdr.

(** [ReadAll]: records until [io.EOF], which is no error; any other
    error drops the records read so far. *)
Fixpoint ReadAll_loop (fuel : nat) (rdr : Reader) (records : list (list string))
  : option (list (list string) * option error) :=
  match fuel with
  | 0 => None
  | S fuel =>
      match readRecord rdr with
      | None => None
      | Some (record, Some EOF, _) => Some (records, None)
      | Some (record, Some e, _) => Some ([], Some e)
      | Some (record, None, rdr') => ReadAll_loop fuel rdr' (records ++ [record])
      end
  end.

Definition ReadAll (rdr : Reader) : option (list (list string) * option error) :=
  ReadAll_loop (S (length (r rdr))) rdr [].

End Csv.

(** ** Errors and outcomes *)

(** The [error] values that reach the resource. *)
Inductive goerror : Type :=
| CsvError (e : Csv.error)             (* from encoding/csv, io.EOF included *)
| AwsError (code message : string)     (* an [awserr.Error] *)
| PlainError (message : string)        (* any other error value *)
| TimeoutError.                        (* the retry loop ran out of time *)

(** How a call of a modelled Go function ends: with its results, with a
    non-nil [error], with a run-time panic (index out of range, nil
    dereference), or not at all within the fuel of a loop. *)
Inductive outcome (A : Type) : Type :=
| Ok (a : A)
| Err (e : goerror)
| Panic
| OutOfFuel.
Arguments Ok {A} a.
Arguments Err {A} e.
Arguments Panic {A}.
Arguments OutOfFuel {A}.

(** ** The data model *)

Record AccessKey : Type := mkAccessKey {
  Active : bool;
  LastUsedDate : string;
  LastRotated : string
}.

Record ReportRow : Type := mkReportRow {
  User : string;
  PasswordEnabled : bool;
  PasswordLastUsed : string;
  PasswordLastChanged : string;
  MfaActive : bool;
  MfaVirtual : bool;
  AccessKeys : list AccessKey
}.

(** [type CredentialReport = []*ReportRow].  An entry is [None] for a nil
    pointer and [Some row] for a pointer to a row.  Every non-nil entry is
    a cell of its own: the only place that creates rows,
    [parseCsvCredentialReport], allocates one per line. *)
Abbreviation CredentialReport := (list (option ReportRow)).

(** ** The CSV decoder *)

Definition parseCsvBool (csv : string) : bool := bool_decide (csv = "true").

(** [for i, k := range headerLine { header[k] = i }], started at index [i]. *)
Fixpoint headerLoop (i : nat) (headerLine : list string) (header : gmap string nat)
  : gmap string nat :=
  match headerLine with
  | [] => header
  | k :: rest => headerLoop (S i) rest (<[k := i]> header)
  end.

(** [header[c]]: a key that is not in the map reads as 0. *)
Definition column (header : gmap string nat) (c : string) : nat :=
  default 0 (header !! c).

(** [line[header[c]]]; [None] is the index-out-of-range panic. *)
Definition cell (header : gmap string nat) (line : list string) (c : string)
  : option string :=
  line !! column header c.

(** The composite literal [&ReportRow{...}] of the row loop; its fields are
    evaluated in the order written. *)
Definition makeRow (header : gmap string nat) (line : list string) : option ReportRow :=
  user ← cell header line "user";
  password_enabled ← cell header line "password_enabled";
  password_last_used ← cell header line "password_last_used";
  password_last_changed ← cell header line "password_last_changed";
  mfa_active ← cell header line "mfa_active";
  access_key_1_active ← cell header line "access_key_1_active";
  access_key_1_last_used_date ← cell header line "access_key_1_last_used_date";
  access_key_1_last_rotated ← cell header line "access_key_1_last_rotated";
  access_key_2_active ← cell header line "access_key_2_active";
  access_key_2_last_used_date ← cell header line "access_key_2_last_used_date";
  access_key_2_last_rotated ← cell header line "access_key_2_last_rotated";
  Some {| User := user;
          PasswordEnabled := parseCsvBool password_enabled;
          PasswordLastUsed := password_last_used;
          PasswordLastChanged := password_last_changed;
          MfaActive := parseCsvBool mfa_active;
          MfaVirtual := false;
          AccessKeys :=
            [ {| Active := parseCsvBool access_key_1_active;
                 LastUsedDate := access_key_1_last_used_date;
                 LastRotated := access_key_1_last_rotated |};
              {| Active := parseCsvBool access_key_2_active;
                 LastUsedDate := access_key_2_last_used_date;
                 LastRotated := access_key_2_last_rotated |} ] |}.

(** [for i, line := range lines { rows[i] = &ReportRow{...} }], started at
    index [i]; [None] is a panic, of a cell of the line or of the
    assignment to [rows[i]] outside of [rows]. *)
Fixpoint rowLoop (header : gmap string nat) (i : nat) (lines : list (list string))
    (rows : CredentialReport) : option CredentialReport :=
  match lines with
  | [] => Some rows
  | line :: rest =>
      row ← makeRow header line;
      if bool_decide (i < length rows)
      then rowLoop header (S i) rest (<[i := Some row]> rows)
      else None
  end.

Definition parseCsvCredentialReport (content : bytes) : outcome CredentialReport :=
  let reader := Csv.NewReader content in
  (* Parse header. *)
  match Csv.Read reader with
  | None => OutOfFuel
  | Some (_, Some err, _) => Err (CsvError err)
  | Some (headerLine, None, reader) =>
      let header := headerLoop 0 headerLine ∅ in
      (* Parse rows into CSV. *)
      match Csv.ReadAll reader with
      | None => OutOfFuel
      | Some (_, Some err) => Err (CsvError err)
      | Some (lines, None) =>
          (* Copy rows into the datatype. *)
          let rows := replicate (length lines) None in
          match rowLoop header 0 lines rows with
          | None => Panic
          | Some rows => Ok rows
          end
      end
  end.

(** ** The serial-number pattern

    The compiled regular expression [serial] of the read closure, whose
    source text is [pattern] below, and its [FindStringSubmatch], from
    Go's package [regexp].  The pattern is anchored at both ends, a run
    of digits cannot run into the colon that follows it, and the dot is
    every character but the line feed, so a match is unique and is found
    by one scan from the left.  A match is the list of the whole match
    and the one submatch; no match is [None] (Go's [nil]).
    [FindStringSubmatch_spec] states what the scan accepts. *)
Module Serial.

Definition pattern : string := "^arn:aws:iam::[0-9]+:mfa/(.*)$".

(** The class of the decimal digits. *)
Definition isDigit (c : ascii) : bool :=
  bool_decide (48 ≤ nat_of_ascii c) && bool_decide (nat_of_ascii c ≤ 57).

(** The literal [p] at the start of [s]: what follows it. *)
Fixpoint literal (p s : string) : option string :=
  match p, s with
  | EmptyString, _ => Some s
  | String a p', String b s' => if decide (a = b) then literal p' s' else None
  | String _ _, EmptyString => None
  end.

(** A greedy run of digits: the digits taken and what follows them. *)
Fixpoint digits (s : string) : string * string :=
  match s with
  | String c s' =>
      if isDigit c then let '(ds, rest) := digits s' in (String c ds, rest)
      else (EmptyString, s)
  | EmptyString => (EmptyString, EmptyString)
  end.

(** The group up to the end of the text: any text without a line feed. *)
Fixpoint dotStar (s : string) : bool :=
  match s with
  | EmptyString => true
  | String c s' => if decide (c = Csv.LF) then false else dotStar s'
  end.

Definition FindStringSubmatch (s : string) : option (list string) :=
  rest ← literal "arn:aws:iam::" s;
  let '(ds, rest) := digits rest in
  if decide (ds = EmptyString) then None
  else
    name ← literal ":mfa/" rest;
    if dotStar name then Some [s; name] else None.

End Serial.

(** ** Virtual-MFA enrichment *)

(** [iam.VirtualMFADevice], of which the resource reads [SerialNumber], a
    [*string]. *)
Record VirtualMFADevice : Type := mkVirtualMFADevice {
  SerialNumber : option string
}.

(** The loop over [listMfaOutput.VirtualMFADevices], a
    [[]*iam.VirtualMFADevice]; [None] is the panic of a nil dereference. *)
Fixpoint mfaLoop (devices : list (option VirtualMFADevice))
    (accountsWithVirtualMfa : gmap string bool) : option (gmap string bool) :=
  match devices with
  | [] => Some accountsWithVirtualMfa
  | virtualMfa :: rest =>
      device ← virtualMfa;
      serialNumber ← SerialNumber device;
      match Serial.FindStringSubmatch serialNumber with
      | Some match_ =>
          if bool_decide (1 < length match_) then
            accountName ← match_ !! 1;
            let accountName :=
              if decide (accountName = "root-account-mfa-device")
              then "<root_account>" else accountName in
            mfaLoop rest (<[accountName := true]> accountsWithVirtualMfa)
          else mfaLoop rest accountsWithVirtualMfa
      | None => mfaLoop rest accountsWithVirtualMfa
      end
  end.

(** [row.MfaVirtual = true] through the pointer [row]. *)
Definition setMfaVirtual (row : ReportRow) : ReportRow :=
  {| User := User row;
     PasswordEnabled := PasswordEnabled row;
     PasswordLastUsed := PasswordLastUsed row;
     PasswordLastChanged := PasswordLastChanged row;
     MfaActive := MfaActive row;
     MfaVirtual := true;
     AccessKeys := AccessKeys row |}.

(** [for _, row := range report { if _, ok := accounts[row.User]; ok {...} }]. *)
Fixpoint enrichLoop (accountsWithVirtualMfa : gmap string bool)
    (report : CredentialReport) : option CredentialReport :=
  match report with
  | [] => Some []
  | p :: rest =>
      row ← p;
      let row :=
        match accountsWithVirtualMfa !! User row with
        | Some _ => setMfaVirtual row
        | None => row
        end in
      rest ← enrichLoop accountsWithVirtualMfa rest;
      Some (Some row :: rest)
  end.

(** Lines 135 to 154 of the read closure. *)
Definition enrich (devices : list (option VirtualMFADevice))
    (report : CredentialReport) : option CredentialReport :=
  accountsWithVirtualMfa ← mfaLoop devices ∅;
  enrichLoop accountsWithVirtualMfa report.

(** ** Flattening *)

(** The values that the resource puts into an [interface{}]. *)
#[local] Set Warnings "-register-all".
Inductive value : Type :=
| VString (s : string)
| VBool (b : bool)
| VList (l : list (gmap string value)).

Definition flattenAccessKey (accessKey : AccessKey) : gmap string value :=
  {[ "active" := VBool (Active accessKey);
     "last_used_date" := VString (LastUsedDate accessKey);
     "last_rotated" := VString (LastRotated accessKey) ]}.

Definition flattenAccessKeys (accessKeys : list AccessKey) : list (gmap string value) :=
  foldl (λ out accessKey, out ++ [flattenAccessKey accessKey]) [] accessKeys.

Definition flattenRow (row : ReportRow) : gmap string value :=
  {[ "user" := VString (User row);
     "password_enabled" := VBool (PasswordEnabled row);
     "password_last_used" := VString (PasswordLastUsed row);
     "password_last_changed" := VString (PasswordLastChanged row);
     "mfa_active" := VBool (MfaActive row);
     "mfa_virtual" := VBool (MfaVirtual row);
     "access_keys" := VList (flattenAccessKeys (AccessKeys row)) ]}.

(** The loop of [flattenCredentialReport] from the slice [out]; [None] is
    the panic of reading a field through a nil row. *)
Fixpoint flattenLoop (report : CredentialReport) (out : list (gmap string value))
  : option (list (gmap string value)) :=
  match report with
  | [] => Some out
  | p :: rest => row ← p; flattenLoop rest (out ++ [flattenRow row])
  end.

Definition flattenCredentialReport (report : CredentialReport)
  : option (list (gmap string value)) :=
  flattenLoop report [].

(** ** The resource operations *)

(** [schema.ResourceData] as far as the resource touches it: the
    identifier written by [SetId] and the fields written by [Set].  The
    resource discards the [error] result of [Set]. *)
Record ResourceData : Type := mkResourceData {
  Id : string;
  fields : gmap string value
}.

Definition SetId (d : ResourceData) (v : string) : ResourceData :=
  {| Id := v; fields := fields d |}.

Definition Set_ (d : ResourceData) (key : string) (v : value) : ResourceData :=
  {| Id := Id d; fields := <[key := v]> (fields d) |}.

(** What an operation does to the outside, in the order it does it. *)
Inductive event : Type :=
| CallGenerateCredentialReport
| CallGetCredentialReport
| CallListVirtualMFADevices
| LogPrintf (content : bytes)
| WriteId (v : string)
| WriteField (key : string) (v : value).

(** The IAM service behind the client's [iamconn], as the answers
    it gives: one for the request to generate a report, one for each
    successive call of the two read endpoints (counted from 0). *)
Record IAMAPI : Type := mkIAMAPI {
  GenerateCredentialReport : option goerror;
  GetCredentialReport : nat → goerror + bytes;
  ListVirtualMFADevices : nat → goerror + list (option VirtualMFADevice)
}.

(** The state an operation runs in: the resource data, how often each
    read endpoint has been called, and the events so far. *)
Record World : Type := mkWorld {
  d : ResourceData;
  getCalls : nat;
  listCalls : nat;
  trace : list event
}.

Definition emit (e : event) (w : World) : World :=
  {| d := d w; getCalls := getCalls w; listCalls := listCalls w;
     trace := trace w ++ [e] |}.

Definition callGet (w : World) : World :=
  emit CallGetCredentialReport
    {| d := d w; getCalls := S (getCalls w); listCalls := listCalls w; trace := trace w |}.

Definition callList (w : World) : World :=
  emit CallListVirtualMFADevices
    {| d := d w; getCalls := getCalls w; listCalls := S (listCalls w); trace := trace w |}.

Definition writeId (v : string) (w : World) : World :=
  emit (WriteId v)
    {| d := SetId (d w) v; getCalls := getCalls w; listCalls := listCalls w;
       trace := trace w |}.

Definition writeField (key : string) (v : value) (w : World) : World :=
  emit (WriteField key v)
    {| d := Set_ (d w) key v; getCalls := getCalls w; listCalls := listCalls w;
       trace := trace w |}.

(** [*resource.RetryError]. *)
Inductive RetryError : Type :=
| RetryableError (err : goerror)
| NonRetryableError (err : goerror).

(** [err.(awserr.Error)] followed by the [switch] on [Code()]. *)
Definition classify (err : goerror) : RetryError :=
  match err with
  | AwsError code _ =>
      if decide (code = "ReportInProgress") then RetryableError err
      else NonRetryableError err
  | _ => NonRetryableError err
  end.

(** The function literal that the read operation hands to
    [resource.Retry]; [Ok None] is its [return nil]. *)
Definition attempt (iamconn : IAMAPI) (w : World) : World * outcome (option RetryError) :=
  (* Prepare a request to actually get the credential report. *)
  let getReportOutput := GetCredentialReport iamconn (getCalls w) in
  let w := callGet w in
  match getReportOutput with
  | inl err => (w, Ok (Some (classify err)))
  | inr content =>
      (* Parse report. *)
      let w := emit (LogPrintf content) w in
      match parseCsvCredentialReport content with
      | Err err => (w, Ok (Some (NonRetryableError err)))
      | Panic => (w, Panic)
      | OutOfFuel => (w, OutOfFuel)
      | Ok report =>
          (* Retrieve info about virtual MFA devices. *)
          let listMfaOutput := ListVirtualMFADevices iamconn (listCalls w) in
          let w := callList w in
          match listMfaOutput with
          | inl err => (w, Ok (Some (NonRetryableError err)))
          | inr devices =>
              match enrich devices report with
              | None => (w, Panic)
              | Some report =>
                  (* Store report in the resource state. *)
                  match flattenCredentialReport report with
                  | None => (w, Panic)
                  | Some flat => (writeField "report" (VList flat) w, Ok None)
                  end
              end
          end
      end
  end.

(** Modelled from the spec: [resource.Retry] of the Terraform helper
    library, which is not among the source files.  Section 4.2 of the
    specification: the function is called again while it reports a
    retryable error and the time budget lasts; a success ends the loop
    with success, any other error ends it with that error, and an
    exhausted budget ends it with a timeout failure.  The budget of one
    minute is counted as [budget], the number of calls that it has room
    for. *)
Fixpoint Retry (budget : nat) (f : World → World * outcome (option RetryError))
    (w : World) : World * outcome unit :=
  match budget with
  | 0 => (w, Err TimeoutError)
  | S budget =>
      match f w with
      | (w, Ok None) => (w, Ok ())
      | (w, Ok (Some (RetryableError _))) => Retry budget f w
      | (w, Ok (Some (NonRetryableError err))) => (w, Err err)
      | (w, Err err) => (w, Err err)
      | (w, Panic) => (w, Panic)
      | (w, OutOfFuel) => (w, OutOfFuel)
      end
  end.

Definition resourceAwsIamCredentialReportRead (budget : nat) (iamconn : IAMAPI)
    (w : World) : World * outcome unit :=
  (* Send a request to generate a credential report. *)
  let w := emit CallGenerateCredentialReport w in
  match GenerateCredentialReport iamconn with
  | Some err => (w, Err err)
  | None => Retry budget (attempt iamconn) w
  end.

Definition resourceAwsIamCredentialReportUpdate (budget : nat) (iamconn : IAMAPI)
    (w : World) : World * outcome unit :=
  let w := writeId "iam-credential-report" w in
  resourceAwsIamCredentialReportRead budget iamconn w.

(** [Create] of the resource schema is the update function. *)
Definition resourceAwsIamCredentialReportCreate := resourceAwsIamCredentialReportUpdate.

Definition resourceAwsIamCredentialReportDelete (iamconn : IAMAPI) (w : World)
  : World * outcome unit :=
  (w, Ok ()).

(** ** The resource and its schema *)

(** [schema.ValueType], of which the resource uses three values. *)
Inductive ValueType : Set := TypeBool | TypeString | TypeList.

(** [schema.Schema] with the fields that the resource sets.  [Elem] is
    the [Schema] map of the [*schema.Resource] that describes the elements
    of a list; the element resources of this file set nothing else. *)
Inductive Schema : Type :=
  mkSchema (Type_ : ValueType) (Optional Computed : bool)
           (Elem : option (gmap string Schema)).

Definition Type_ (s : Schema) : ValueType :=
  match s with mkSchema t _ _ _ => t end.
Definition Optional (s : Schema) : bool :=
  match s with mkSchema _ o _ _ => o end.
Definition Computed (s : Schema) : bool :=
  match s with mkSchema _ _ c _ => c end.
Definition Elem (s : Schema) : option (gmap string Schema) :=
  match s with mkSchema _ _ _ e => e end.

(** The state function of [schema.ResourceImporter]. *)
Inductive StateFunc : Set := ImportStatePassthrough.

(** [schema.Resource] with the fields that the resource sets. *)
Record Resource : Type := mkResource {
  Create : nat → IAMAPI → World → World * outcome unit;
  Read : nat → IAMAPI → World → World * outcome unit;
  Update : nat → IAMAPI → World → World * outcome unit;
  Delete : IAMAPI → World → World * outcome unit;
  Importer : StateFunc;
  Schema_ : gmap string Schema
}.

Definition resourceAwsIamCredentialReport : Resource :=
  {| Create := resourceAwsIamCredentialReportUpdate;
     Read := resourceAwsIamCredentialReportRead;
     Update := resourceAwsIamCredentialReportUpdate;
     Delete := resourceAwsIamCredentialReportDelete;
     Importer := ImportStatePassthrough;
     Schema_ :=
       {[ "report" :=
            mkSchema TypeList true true (Some
              {[ "user" := mkSchema TypeString false true None;
                 "password_enabled" := mkSchema TypeBool false true None;
                 "password_last_used" := mkSchema TypeString false true None;
                 "password_last_changed" := mkSchema TypeString false true None;
                 "mfa_active" := mkSchema TypeBool false true None;
                 "mfa_virtual" := mkSchema TypeBool false true None;
                 "access_keys" :=
                   mkSchema TypeList false true (Some
                     {[ "active" := mkSchema TypeBool false true None;
                        "last_used_date" := mkSchema TypeString false true None;
                        "last_rotated" := mkSchema TypeString false true None ]}) ]}) ]}
  |}.

(** ** Definitions used in the statements *)

(** A payload is a CSV document with the header [headerLine] and the data
    records [lines] when the reader reads these, without error, by the
    two calls that the decoder makes. *)
Definition csvPayload (content : bytes) (headerLine : list string)
    (lines : list (list string)) : Prop :=
  ∃ rdr, Csv.Read (Csv.NewReader content) = Some (headerLine, None, rdr) ∧
         Csv.ReadAll rdr = Some (lines, None).

(** The account part of an ARN: decimal digits. *)
Fixpoint allDigits (s : string) : bool :=
  match s with
  | EmptyString => true
  | String c s' => Serial.isDigit c && allDigits s'
  end.

Fixpoint noLineFeed (s : string) : bool :=
  match s with
  | EmptyString => true
  | String c s' => negb (bool_decide (c = Csv.LF)) && noLineFeed s'
  end.

Definition arn (account name : string) : string :=
  "arn:aws:iam::" +:+ account +:+ ":mfa/" +:+ name.

(** [s] is, from its first to its last character, the ARN of the MFA
    device [name] of some account. *)
Definition matchesArn (s name : string) : Prop :=
  ∃ account, account ≠ EmptyString ∧ allDigits account = true ∧ noLineFeed name = true ∧
             s = arn account name.

(** A device as the service lists it, with its serial number. *)
Definition deviceOf (serialNumber : string) : option VirtualMFADevice :=
  Some {| SerialNumber := Some serialNumber |}.

(** The name under which the credential report lists the user of a
    device: the root account has a name of its own. *)
Definition reportName (name : string) : string :=
  if decide (name = "root-account-mfa-device") then "<root_account>" else name.

(** What the row loop of the enrichment does to one row. *)
Definition mark (accountsWithVirtualMfa : gmap string bool) (row : ReportRow) : ReportRow :=
  match accountsWithVirtualMfa !! User row with
  | Some _ => setMfaVirtual row
  | None => row
  end.

(** Reading a flattened value back: the typed lookups of a consumer of
    the state record, which fail on a missing key or a value of another
    type. *)
Definition getString (m : gmap string value) (key : string) : option string :=
  match m !! key with Some (VString s) => Some s | _ => None end.

Definition getBool (m : gmap string value) (key : string) : option bool :=
  match m !! key with Some (VBool b) => Some b | _ => None end.

Definition getList (m : gmap string value) (key : string)
  : option (list (gmap string value)) :=
  match m !! key with Some (VList l) => Some l | _ => None end.

Definition unflattenAccessKey (m : gmap string value) : option AccessKey :=
  active ← getBool m "active";
  last_used_date ← getString m "last_used_date";
  last_rotated ← getString m "last_rotated";
  Some {| Active := active; LastUsedDate := last_used_date; LastRotated := last_rotated |}.

Definition unflattenRow (m : gmap string value) : option ReportRow :=
  user ← getString m "user";
  password_enabled ← getBool m "password_enabled";
  password_last_used ← getString m "password_last_used";
  password_last_changed ← getString m "password_last_changed";
  mfa_active ← getBool m "mfa_active";
  mfa_virtual ← getBool m "mfa_virtual";
  access_keys ← getList m "access_keys";
  access_keys ← mapM unflattenAccessKey access_keys;
  Some {| User := user;
          PasswordEnabled := password_enabled;
          PasswordLastUsed := password_last_used;
          PasswordLastChanged := password_last_changed;
          MfaActive := mfa_active;
          MfaVirtual := mfa_virtual;
          AccessKeys := access_keys |}.

Definition unflattenCredentialReport (out : list (gmap string value))
  : option (list ReportRow) :=
  mapM unflattenRow out.

Definition isWrite (e : event) : bool :=
  match e with WriteField _ _ => true | _ => false end.

(** [polls k w]: the state after [k] more calls of the get endpoint that
    changed nothing else. *)
Fixpoint polls (k : nat) (w : World) : World :=
  match k with
  | 0 => w
  | S k => polls k (callGet w)
  end.

(** The text of a CSV document whose fields need no quoting: the fields of
    a record joined by commas, every record ended by a line feed. *)
Fixpoint joinFields (fields : list string) : bytes :=
  match fields with
  | [] => []
  | [field] => bytes_of_string field
  | field :: rest => bytes_of_string field ++ Csv.Comma :: joinFields rest
  end.

Definition renderRecord (fields : list string) : bytes :=
  joinFields fields ++ [Csv.LF].

Definition render (records : list (list string)) : bytes :=
  concat (renderRecord <$> records).

(** The text with the given lines, each ended by a line feed. *)
Definition textOf (lines : list string) : bytes :=
  concat ((λ line, bytes_of_string line ++ [Csv.LF]) <$> lines).

(** A credential report of two users. *)
Definition sampleReport : bytes :=
  textOf
    [ "user,arn,password_enabled,password_last_used,password_last_changed,mfa_active,access_key_1_active,access_key_1_last_rotated,access_key_1_last_used_date,access_key_2_active,access_key_2_last_rotated,access_key_2_last_used_date";
      "<root_account>,arn:aws:iam::123456789012:root,not_supported,2018-03-01T10:00:00+00:00,not_supported,true,false,N/A,N/A,false,N/A,N/A";
      "alice,arn:aws:iam::123456789012:user/alice,true,2018-03-02T11:00:00+00:00,2018-01-01T09:00:00+00:00,false,true,2018-01-01T09:05:00+00:00,2018-03-02T12:00:00+00:00,false,N/A,N/A" ].

Definition sampleHeader : list string :=
  ["user"; "arn"; "password_enabled"; "password_last_used"; "password_last_changed";
   "mfa_active"; "access_key_1_active"; "access_key_1_last_rotated";
   "access_key_1_last_used_date"; "access_key_2_active"; "access_key_2_last_rotated";
   "access_key_2_last_used_date"].

Definition sampleLines : list (list string) :=
  [ ["<root_account>"; "arn:aws:iam::123456789012:root"; "not_supported";
     "2018-03-01T10:00:00+00:00"; "not_supported"; "true"; "false"; "N/A"; "N/A";
     "false"; "N/A"; "N/A"];
    ["alice"; "arn:aws:iam::123456789012:user/alice"; "true";
     "2018-03-02T11:00:00+00:00"; "2018-01-01T09:00:00+00:00"; "false"; "true";
     "2018-01-01T09:05:00+00:00"; "2018-03-02T12:00:00+00:00"; "false"; "N/A"; "N/A"] ].

(** A credential report of one user whose header has every column that
    the decoder reads but [user]. *)
Definition headlessReport : bytes :=
  textOf
    [ "arn,password_enabled,password_last_used,password_last_changed,mfa_active,access_key_1_active,access_key_1_last_rotated,access_key_1_last_used_date,access_key_2_active,access_key_2_last_rotated,access_key_2_last_used_date";
      "arn:aws:iam::123456789012:user/alice,true,2018-03-02T11:00:00+00:00,2018-01-01T09:00:00+00:00,false,true,2018-01-01T09:05:00+00:00,2018-03-02T12:00:00+00:00,false,N/A,N/A" ].

Definition headlessHeader : list string :=
  ["arn"; "password_enabled"; "password_last_used"; "password_last_changed";
   "mfa_active"; "access_key_1_active"; "access_key_1_last_rotated";
   "access_key_1_last_used_date"; "access_key_2_active"; "access_key_2_last_rotated";
   "access_key_2_last_used_date"].

Definition headlessLines : list (list string) :=
  [ ["arn:aws:iam::123456789012:user/alice"; "true"; "2018-03-02T11:00:00+00:00";
     "2018-01-01T09:00:00+00:00"; "false"; "true"; "2018-01-01T09:05:00+00:00";
     "2018-03-02T12:00:00+00:00"; "false"; "N/A"; "N/A"] ].

(** The row that the decoder makes of the one line of [headlessReport]. *)
Definition headlessRow : ReportRow :=
  {| User := "arn:aws:iam::123456789012:user/alice";
     PasswordEnabled := true;
     PasswordLastUsed := "2018-03-02T11:00:00+00:00";
     PasswordLastChanged := "2018-01-01T09:00:00+00:00";
     MfaActive := false;
     MfaVirtual := false;
     AccessKeys :=
       [ {| Active := true; LastUsedDate := "2018-03-02T12:00:00+00:00";
            LastRotated := "2018-01-01T09:05:00+00:00" |};
         {| Active := false; LastUsedDate := "N/A"; LastRotated := "N/A" |} ] |}.

(** A service that has the report [content] ready at the first call and
    lists the devices [devices], and a resource that has no state yet. *)
Definition readyService (content : bytes) (devices : list (option VirtualMFADevice))
  : IAMAPI :=
  {| GenerateCredentialReport := None;
     GetCredentialReport := λ _, inr content;
     ListVirtualMFADevices := λ _, inr devices |}.

Definition newWorld : World :=
  {| d := {| Id := EmptyString; fields := ∅ |}; getCalls := 0; listCalls := 0; trace := [] |}.

Definition sampleSerials : list string :=
  ["arn:aws:iam::123456789012:mfa/alice"; "not-an-arn";
   "arn:aws:iam::123456789012:mfa/root-account-mfa-device"].

Definition sampleRow (user : string) (mfa_virtual : bool) : ReportRow :=
  {| User := user; PasswordEnabled := true; PasswordLastUsed := "N/A";
     PasswordLastChanged := "2018-01-01T09:00:00+00:00"; MfaActive := true;
     MfaVirtual := mfa_virtual;
     AccessKeys := [ {| Active := true; LastUsedDate := "N/A";
                        LastRotated := "2018-01-01T09:05:00+00:00" |};
                     {| Active := false; LastUsedDate := "N/A"; LastRotated := "N/A" |} ] |}.

Definition sampleRows : list ReportRow :=
  [sampleRow "<root_account>" false; sampleRow "alice" false; sampleRow "bob" false;
   sampleRow "carol" true].

(** The get endpoint answers the next [k] calls, counted from the state
    [w], with the error code of a report that is still being generated. *)
Definition inProgress (iamconn : IAMAPI) (w : World) (k : nat) : Prop :=
  ∀ i, i < k →
    ∃ message, GetCredentialReport iamconn (getCalls w + i)
               = inl (AwsError "ReportInProgress" message).

(** An error that is not the one of a report in progress. *)
Definition otherError (err : goerror) : Prop :=
  ∀ message, err ≠ AwsError "ReportInProgress" message.

(** The device listings of the service have no nil device and no nil
    serial number, as the service's interface promises. *)
Definition listsDevices (iamconn : IAMAPI) : Prop :=
  ∀ n devices, ListVirtualMFADevices iamconn n = inr devices →
    ∃ ids, devices = deviceOf <$> ids.

(** A service whose report is in progress for the first [k] calls and
    ready, with the sample report, from then on. *)
Definition slowService (k : nat) : IAMAPI :=
  {| GenerateCredentialReport := None;
     GetCredentialReport := λ n,
       if bool_decide (n < k) then inl (AwsError "ReportInProgress" "not ready")
       else inr sampleReport;
     ListVirtualMFADevices := λ _, inr (deviceOf <$> sampleSerials) |}.

(** A field that is written to a CSV line as it is: no comma, no quote,
    no line break.  A record of such fields, one at least, whose line is
    not empty. *)
Definition plainField (field : string) : Prop :=
  Forall (λ c, c ≠ Csv.Comma ∧ c ≠ Csv.Quote ∧ c ≠ Csv.CR ∧ c ≠ Csv.LF)
    (bytes_of_string field).

Definition plainRecord (fields : list string) : Prop :=
  Forall plainField fields ∧ joinFields fields ≠ [].

#[global] Instance plainField_dec field : Decision (plainField field).
Proof. unfold plainField. apply _. Defined.

#[global] Instance plainRecord_dec fields : Decision (plainRecord fields).
Proof. unfold plainRecord. apply _. Defined.

(** The type that the schema has for a value. *)
Definition typeOf (v : value) : ValueType :=
  match v with
  | VString _ => TypeString
  | VBool _ => TypeBool
  | VList _ => TypeList
  end.

(** A map has the shape of a schema map: the same keys, and under each
    key a value of the type that the schema declares for the key. *)
Definition hasShape (schema : gmap string Schema) (m : gmap string value) : Prop :=
  typeOf <$> m = Type_ <$> schema.

(** The column names that the decoder reads. *)
Definition requiredColumns : list string :=
  ["user"; "password_enabled"; "password_last_used"; "password_last_changed";
   "mfa_active"; "access_key_1_active"; "access_key_1_last_used_date";
   "access_key_1_last_rotated"; "access_key_2_active"; "access_key_2_last_used_date";
   "access_key_2_last_rotated"].

(** The fields of a record under the names of the header; of two columns
    of one name the later one counts. *)
Definition byName (headerLine line : list string) : gmap string string :=
  list_to_map (reverse (zip headerLine line)).

(** The row of a record that is given by the names of its fields. *)
Definition decodeByName (m : gmap string string) : option ReportRow :=
  user ← m !! "user";
  password_enabled ← m !! "password_enabled";
  password_last_used ← m !! "password_last_used";
  password_last_changed ← m !! "password_last_changed";
  mfa_active ← m !! "mfa_active";
  access_key_1_active ← m !! "access_key_1_active";
  access_key_1_last_used_date ← m !! "access_key_1_last_used_date";
  access_key_1_last_rotated ← m !! "access_key_1_last_rotated";
  access_key_2_active ← m !! "access_key_2_active";
  access_key_2_last_used_date ← m !! "access_key_2_last_used_date";
  access_key_2_last_rotated ← m !! "access_key_2_last_rotated";
  Some {| User := user;
          PasswordEnabled := bool_decide (password_enabled = "true");
          PasswordLastUsed := password_last_used;
          PasswordLastChanged := password_last_changed;
          MfaActive := bool_decide (mfa_active = "true");
          MfaVirtual := false;
          AccessKeys :=
            [ {| Active := bool_decide (access_key_1_active = "true");
                 LastUsedDate := access_key_1_last_used_date;
                 LastRotated := access_key_1_last_rotated |};
              {| Active := bool_decide (access_key_2_active = "true");
                 LastUsedDate := access_key_2_last_used_date;
                 LastRotated := access_key_2_last_rotated |} ] |}.

(** A device that is not nil and has a serial number. *)
Definition properDevice (device : option VirtualMFADevice) : Prop :=
  ∃ serialNumber, device = deviceOf serialNumber.

(** * Properties *)

(** ** The CSV reader: it consumes its input and terminates *)

Lemma ReadSlice_app inp line eof rest :
  Csv.ReadSlice inp = (line, eof, rest) → inp = line ++ rest.
Proof.
  revert line eof rest. induction inp as [|c inp IH]; intros line eof rest; simpl.
  - by intros [= <- <- <-].
  - case_decide.
    + by intros [= <- <- <-].
    + destruct (Csv.ReadSlice inp) as [[l e] r'].
      intros [= <- <- <-]. simpl. f_equal. by eapply IH.
Qed.

Lemma ReadSlice_nonempty inp line eof rest :
  Csv.ReadSlice inp = (line, eof, rest) → inp ≠ [] → line ≠ [].
Proof.
  destruct inp as [|c inp]; [done|]. simpl. case_decide.
  - by intros [= <- <- <-].
  - destruct (Csv.ReadSlice inp) as [[l e] r']. by intros [= <- <- <-].
Qed.

(** What [readLine] returns is no longer than what it takes from the
    input, and it reports the end of the input only when nothing is left. *)
Lemma readLine_spec inp line eof rest :
  Csv.readLine inp = (line, eof, rest) →
  length line + length rest ≤ length inp ∧
  (inp ≠ [] → length rest < length inp ∧ eof = false) ∧
  (inp = [] → line = [] ∧ rest = [] ∧ eof = true).
Proof.
  unfold Csv.readLine.
  destruct (Csv.ReadSlice inp) as [[l e] r'] eqn:E.
  pose proof (ReadSlice_app _ _ _ _ E) as Happ.
  pose proof (ReadSlice_nonempty _ _ _ _ E) as Hne.
  assert (Hlen : length inp = length l + length r') by (by rewrite Happ, length_app).
  set (l1e := if bool_decide (0 < length l) && e then _ else _).
  assert (H1 : length l1e.1 ≤ length l ∧ (inp ≠ [] → l1e.2 = false)
               ∧ (inp = [] → l1e = ([], true))).
  { subst l1e. destruct inp as [|c inp].
    - simpl in E. injection E as <- <- <-. simpl. done.
    - destruct l as [|c' l]; [by exfalso; apply Hne|].
      rewrite bool_decide_eq_true_2 by (simpl; lia).
      destruct e; simpl.
      + split_and!; [|done..].
        case_bool_decide; simpl; [rewrite length_take|]; lia.
      + split_and!; [lia|done..]. }
  destruct l1e as [l1 e1]. simpl in H1. destruct H1 as (Hl1 & He1 & Hnil).
  set (l2 := if _ : bool then _ else l1).
  assert (H2 : length l2 ≤ length l1 ∧ (l1 = [] → l2 = [])).
  { subst l2. destruct (bool_decide (2 ≤ length l1)) eqn:E2; simpl; [|done].
    apply bool_decide_eq_true_1 in E2.
    destruct (_ && _); [|done].
    split; [rewrite length_app, length_take; simpl; lia|].
    intros ->. simpl in E2. lia. }
  destruct H2 as [Hl2 Hl2nil].
  intros [= <- <- <-]. split; [lia|]. split.
  - intros Hi. split; [|by apply He1].
    specialize (Hne Hi). destruct l; [done|]. simpl in Hlen. lia.
  - intros ->. specialize (Hnil eq_refl). injection Hnil as -> ->.
    simpl in E. injection E as <- <- <-. by rewrite Hl2nil.
Qed.

Lemma lengthNL_le b : Csv.lengthNL b ≤ length b.
Proof.
  unfold Csv.lengthNL. case_bool_decide; [|lia].
  destruct b; [done|simpl; lia].
Qed.

(** The line that [nextLine] stops at. *)
Lemma nextLine_spec fuel inp line eof rest :
  Csv.nextLine fuel inp = Some (line, eof, rest) →
  length line + length rest ≤ length inp ∧
  (eof = false → 0 < length line ∧ length line ≠ Csv.lengthNL line).
Proof.
  revert inp. induction fuel as [|fuel IH]; intros inp; [done|]. simpl.
  destruct (Csv.readLine inp) as [[l e] r'] eqn:E.
  destruct (readLine_spec _ _ _ _ E) as (Hlen & Hne & Hnil).
  destruct (negb e && bool_decide (length l = Csv.lengthNL l)) eqn:Eb.
  - intros H. destruct (IH _ H) as [H1 H2]. split; [lia|done].
  - intros [= <- <- <-]. split; [done|]. intros ->. simpl in Eb.
    apply bool_decide_eq_false_1 in Eb. split; [|done].
    pose proof (lengthNL_le l). destruct l; [done|simpl; lia].
Qed.

Lemma nextLine_total fuel inp :
  length inp < fuel → is_Some (Csv.nextLine fuel inp).
Proof.
  revert inp. induction fuel as [|fuel IH]; intros inp Hf; [lia|]. simpl.
  destruct (Csv.readLine inp) as [[l e] r'] eqn:E.
  destruct (readLine_spec _ _ _ _ E) as (Hlen & Hne & Hnil).
  destruct (negb e && bool_decide (length l = Csv.lengthNL l)) eqn:Eb; [|done].
  apply IH. destruct inp as [|c inp].
  - destruct (Hnil eq_refl) as (_ & _ & ->). done.
  - destruct Hne as [Hne _]; [done|]. lia.
Qed.

Lemma IndexByte_lt b c i : Csv.IndexByte b c = Some i → i < length b.
Proof.
  revert i. induction b as [|x b IH]; intros i; simpl; [done|].
  case_decide; [intros [= <-]; lia|].
  destruct (Csv.IndexByte b c) as [j|]; simpl; [|done].
  intros [= <-]. specialize (IH j eq_refl). lia.
Qed.

Lemma head_Some_length {A} (l : list A) x : head l = Some x → length (drop 1 l) < length l.
Proof. destruct l; [done|]. simpl. rewrite drop_0. lia. Qed.

(** The two loops of [readRecord] end within their fuel. *)
Lemma parseField_total fuel :
  (∀ line rd dst, length line + length rd < fuel →
     is_Some (Csv.parseField fuel line rd dst)) ∧
  (∀ line rd dst cur, length line + length rd < fuel →
     is_Some (Csv.quotedField fuel line rd dst cur)).
Proof.
  induction fuel as [|fuel [IHp IHq]]; [split; intros; lia|]. split.
  - intros line rd dst Hf. simpl. case_bool_decide as Hq.
    + destruct (Csv.IndexByte (match Csv.IndexByte line Csv.Comma with
                               | Some i => take i line
                               | None => take (length line - Csv.lengthNL line) line
                               end) Csv.Quote); [done|].
      destruct (Csv.IndexByte line Csv.Comma) as [i|] eqn:Ei; [|done].
      apply IHp. apply IndexByte_lt in Ei. rewrite length_drop. lia.
    + apply IHq. apply head_Some_length in Hq. lia.
  - intros line rd dst cur Hf. simpl.
    destruct (Csv.IndexByte line Csv.Quote) as [i|] eqn:Ei.
    + apply IndexByte_lt in Ei.
      destruct (drop (i + 1) line) as [|c line'] eqn:Ed; [done|].
      assert (length line' < length line).
      { apply (f_equal length) in Ed. rewrite length_drop in Ed. simpl in Ed. lia. }
      destruct (decide (c = Csv.Quote)); [apply IHq; lia|].
      destruct (decide (c = Csv.Comma)); [apply IHp; lia|].
      by case_bool_decide.
    + case_bool_decide as Hl; [|done].
      destruct (Csv.readLine rd) as [[line' e] rd'] eqn:E.
      destruct (readLine_spec _ _ _ _ E) as (Hlen & _ & _).
      apply IHq. lia.
Qed.

(** What the two loops return: they only consume input, and a record
    without error has gained at least one field. *)
Lemma parseField_spec fuel :
  (∀ line rd dst dst' err rd',
     Csv.parseField fuel line rd dst = Some (dst', err, rd') →
     length rd' ≤ length rd ∧ (err = None → length dst < length dst')) ∧
  (∀ line rd dst cur dst' err rd',
     Csv.quotedField fuel line rd dst cur = Some (dst', err, rd') →
     length rd' ≤ length rd ∧ (err = None → length dst < length dst')).
Proof.
  induction fuel as [|fuel [IHp IHq]]; [split; intros; discriminate|]. split.
  - intros line rd dst dst' err rd'. simpl. case_bool_decide as Hq.
    + destruct (Csv.IndexByte (match Csv.IndexByte line Csv.Comma with
                               | Some i => take i line
                               | None => take (length line - Csv.lengthNL line) line
                               end) Csv.Quote).
      { intros [= <- <- <-]. done. }
      destruct (Csv.IndexByte line Csv.Comma) as [i|] eqn:Ei.
      * intros H. apply IHp in H as [H1 H2]. split; [done|].
        intros He. specialize (H2 He). rewrite length_app in H2. simpl in H2. lia.
      * intros [= <- <- <-]. split; [done|]. intros _. rewrite length_app. simpl. lia.
    + intros H. by apply IHq in H.
  - intros line rd dst cur dst' err rd'. simpl.
    destruct (Csv.IndexByte line Csv.Quote) as [i|] eqn:Ei.
    + destruct (drop (i + 1) line) as [|c line'] eqn:Ed.
      { intros [= <- <- <-]. split; [done|]. intros _. rewrite length_app. simpl. lia. }
      destruct (decide (c = Csv.Quote)); [|destruct (decide (c = Csv.Comma))].
      * intros H. by apply IHq in H.
      * intros H. apply IHp in H as [H1 H2]. split; [done|].
        intros He. specialize (H2 He). rewrite length_app in H2. simpl in H2. lia.
      * case_bool_decide; intros [= <- <- <-]; (split; [done|]); [|done].
        intros _. rewrite length_app. simpl. lia.
    + case_bool_decide as Hl; [|by intros [= <- <- <-]].
      destruct (Csv.readLine rd) as [[line' e] rd2] eqn:E.
      destruct (readLine_spec _ _ _ _ E) as (Hlen & _ & _).
      intros H. apply IHq in H as [H1 H2]. split; [lia|done].
Qed.

Lemma readRecord_total rdr : is_Some (Csv.readRecord rdr).
Proof.
  unfold Csv.readRecord.
  destruct (nextLine_total (S (length (Csv.r rdr))) (Csv.r rdr)) as [[[line eof] rest] ->];
    [lia|].
  destruct eof; [done|].
  destruct (proj1 (parseField_total (S (length line + length rest))) line rest [])
    as [[[dst err] rest'] ->]; [lia|].
  by destruct (Csv.checkFieldCount _ _ _).
Qed.

(** A record read without error has at least one field, has used up
    input, and has the number of fields that the reader expects, which
    the first record fixes. *)
Lemma readRecord_spec rdr dst rdr' :
  Csv.readRecord rdr = Some (dst, None, rdr') →
  0 < length dst ∧
  length (Csv.r rdr') < length (Csv.r rdr) ∧
  ((0 < Csv.FieldsPerRecord rdr)%Z →
     Z.of_nat (length dst) = Csv.FieldsPerRecord rdr ∧
     Csv.FieldsPerRecord rdr' = Csv.FieldsPerRecord rdr) ∧
  (Csv.FieldsPerRecord rdr = 0%Z →
     Csv.FieldsPerRecord rdr' = Z.of_nat (length dst)).
Proof.
  unfold Csv.readRecord.
  destruct (Csv.nextLine _ _) as [[[line eof] rest]|] eqn:En; [|done].
  destruct eof; [done|].
  destruct (nextLine_spec _ _ _ _ _ En) as [Hlen Hline].
  destruct (Hline eq_refl) as [Hpos _].
  destruct (Csv.parseField _ _ _ _) as [[[dst0 err0] rest0]|] eqn:Ep; [|done].
  apply (proj1 (parseField_spec _)) in Ep as [Hrest Hdst].
  unfold Csv.checkFieldCount.
  case_bool_decide as Hfpr.
  - destruct (bool_decide (Z.of_nat (length dst0) ≠ Csv.FieldsPerRecord rdr)) eqn:Ec;
      simpl.
    + destruct err0; simpl; intros [= <- <-]; done.
    + apply bool_decide_eq_false_1, dec_stable in Ec.
      intros [= <- -> <-]. simpl. specialize (Hdst eq_refl). simpl in Hdst.
      split_and!; [lia|lia|done|lia].
  - case_bool_decide as Hz; intros [= <- -> <-]; simpl;
      specialize (Hdst eq_refl); simpl in Hdst; split_and!; try lia; done.
Qed.

Lemma ReadAll_loop_total fuel rdr records :
  length (Csv.r rdr) < fuel → is_Some (Csv.ReadAll_loop fuel rdr records).
Proof.
  revert rdr records. induction fuel as [|fuel IH]; intros rdr records Hf; [lia|].
  simpl. destruct (readRecord_total rdr) as [[[record err] rdr'] E]. rewrite E.
  destruct err as [[]|]; try done.
  apply IH. apply readRecord_spec in E. lia.
Qed.

(** Once the field count is fixed, [ReadAll] returns only records of that
    many fields, after the ones it started from. *)
Lemma ReadAll_loop_spec fuel rdr records lines :
  Csv.ReadAll_loop fuel rdr records = Some (lines, None) →
  (0 < Csv.FieldsPerRecord rdr)%Z →
  ∃ more, lines = records ++ more ∧
    Forall (λ line : list string, Z.of_nat (length line) = Csv.FieldsPerRecord rdr) more.
Proof.
  revert rdr records. induction fuel as [|fuel IH]; intros rdr records; [done|].
  simpl. destruct (Csv.readRecord rdr) as [[[record err] rdr']|] eqn:E; [|done].
  destruct err as [[]|]; try done.
  - intros [= <-] _. exists []. by rewrite app_nil_r.
  - intros H Hfpr. apply readRecord_spec in E as (_ & _ & Hn & _).
    destruct (Hn Hfpr) as [Hlen Hsame].
    apply IH in H as (more & -> & Hmore); [|lia].
    exists (record :: more). split; [by rewrite <- app_assoc|].
    constructor; [done|]. by rewrite <- Hsame.
Qed.

(** The header decides the width of every line. *)
Lemma reader_widths content headerLine rdr lines :
  Csv.Read (Csv.NewReader content) = Some (headerLine, None, rdr) →
  Csv.ReadAll rdr = Some (lines, None) →
  0 < length headerLine ∧
  Forall (λ line : list string, length line = length headerLine) lines.
Proof.
  intros Hh Hl. apply readRecord_spec in Hh as (Hpos & _ & _ & Hfpr).
  specialize (Hfpr eq_refl).
  split; [done|].
  apply ReadAll_loop_spec in Hl as (more & -> & Hmore); [|lia].
  simpl. eapply Forall_impl; [done|]. simpl. intros line. lia.
Qed.

(** ** The header map *)

(** An entry of the header map is either an old one or the position of a
    column of that name. *)
Lemma headerLoop_lookup headerLine i header c j :
  headerLoop i headerLine header !! c = Some j →
  header !! c = Some j ∨ (i ≤ j ∧ headerLine !! (j - i) = Some c).
Proof.
  revert i header. induction headerLine as [|k rest IH]; intros i header; simpl.
  - by left.
  - intros H. apply IH in H as [H|[Hle H]].
    + destruct (decide (k = c)) as [->|Hne].
      * rewrite lookup_insert_eq in H. injection H as <-. right.
        split; [done|]. by rewrite Nat.sub_diag.
      * rewrite lookup_insert_ne in H by done. by left.
    + right. split; [lia|]. by replace (j - i) with (S (j - S i)) by lia.
Qed.

Lemma headerLoop_absent headerLine i header c :
  c ∉ headerLine → headerLoop i headerLine header !! c = header !! c.
Proof.
  revert i header. induction headerLine as [|k rest IH]; intros i header; simpl; [done|].
  rewrite not_elem_of_cons. intros [Hne Hrest].
  rewrite IH by done. by rewrite lookup_insert_ne.
Qed.

(** Every column index that the header map gives out, the default 0
    included, is inside a line as wide as a non-empty header. *)
Lemma column_lt headerLine c :
  0 < length headerLine → column (headerLoop 0 headerLine ∅) c < length headerLine.
Proof.
  intros Hpos. unfold column.
  destruct (headerLoop 0 headerLine ∅ !! c) as [j|] eqn:E; simpl; [|done].
  apply headerLoop_lookup in E as [E|[_ E]]; [by rewrite lookup_empty in E|].
  apply lookup_lt_Some in E. lia.
Qed.

Lemma headerLoop_present headerLine i header c :
  is_Some (header !! c) ∨ c ∈ headerLine →
  is_Some (headerLoop i headerLine header !! c).
Proof.
  revert i header. induction headerLine as [|k rest IH]; intros i header; simpl.
  - intros [H|H]; [done|]. by apply elem_of_nil in H.
  - intros H. apply IH. destruct (decide (k = c)) as [->|Hne].
    + left. by rewrite lookup_insert_eq.
    + rewrite lookup_insert_ne by done. destruct H as [H|H]; [by left|].
      apply elem_of_cons in H as [->|H]; [done|by right].
Qed.

(** A column that is named in the header is read where the header names
    it; a column that is not is read at index 0. *)
Lemma column_named headerLine c :
  c ∈ headerLine → headerLine !! column (headerLoop 0 headerLine ∅) c = Some c.
Proof.
  intros Hin. unfold column.
  destruct (headerLoop_present headerLine 0 ∅ c) as [j E]; [by right|].
  rewrite E. simpl.
  apply headerLoop_lookup in E as [E|[_ E]]; [by rewrite lookup_empty in E|].
  by rewrite Nat.sub_0_r in E.
Qed.

Lemma column_absent headerLine c :
  c ∉ headerLine → column (headerLoop 0 headerLine ∅) c = 0.
Proof.
  intros Hnin. unfold column. by rewrite headerLoop_absent, lookup_empty.
Qed.

(** ** The row loop *)

Lemma makeRow_total header line :
  (∀ c, column header c < length line) → is_Some (makeRow header line).
Proof.
  intros Hcol. unfold makeRow, cell.
  repeat match goal with
  | |- context [line !! column header ?c] =>
      let x := fresh "x" in
      destruct (lookup_lt_is_Some_2 line (column header c) (Hcol c)) as [x ->]; simpl
  end.
  done.
Qed.

(** The loop writes the row of the [j]-th remaining line at index
    [i + j] and leaves the other entries of [rows] alone. *)
Lemma rowLoop_spec header lines : ∀ i rows,
  i + length lines ≤ length rows →
  Forall (λ line, is_Some (makeRow header line)) lines →
  ∃ rows', rowLoop header i lines rows = Some rows' ∧
    length rows' = length rows ∧
    (∀ j, j < i → rows' !! j = rows !! j) ∧
    (∀ j line, lines !! j = Some line →
       ∃ row, makeRow header line = Some row ∧ rows' !! (i + j) = Some (Some row)).
Proof.
  induction lines as [|line rest IH]; intros i rows Hlen Hrows; simpl.
  - exists rows. split_and!; [done..|]. intros j line. by rewrite lookup_nil.
  - apply Forall_cons in Hrows as [[row Hrow] Hrest]. rewrite Hrow. simpl.
    simpl in Hlen. rewrite bool_decide_eq_true_2 by lia.
    destruct (IH (S i) (<[i:=Some row]> rows)) as (rows' & -> & Hl & Hbelow & Hat);
      [rewrite length_insert; lia|done|].
    exists rows'. rewrite length_insert in Hl. split_and!; [done..| |].
    + intros j Hj. rewrite Hbelow by lia. apply list_lookup_insert_ne. lia.
    + intros [|j] line'; simpl.
      * intros [= <-]. exists row. split; [done|].
        rewrite Nat.add_0_r, Hbelow by lia. apply list_lookup_insert_eq. lia.
      * intros Hj. destruct (Hat _ _ Hj) as (row' & Hrow' & Hlook).
        exists row'. split; [done|]. by replace (i + S j) with (S i + j) by lia.
Qed.

(** On a CSV document the decoder succeeds, with one row per data record,
    in the order of the records. *)
Lemma parse_payload content headerLine lines :
  csvPayload content headerLine lines →
  ∃ rows, parseCsvCredentialReport content = Ok rows ∧
    length rows = length lines ∧
    ∀ j line, lines !! j = Some line →
      ∃ row, makeRow (headerLoop 0 headerLine ∅) line = Some row ∧
             rows !! j = Some (Some row).
Proof.
  intros (rdr & Hh & Hl).
  destruct (reader_widths _ _ _ _ Hh Hl) as [Hpos Hwidth].
  unfold parseCsvCredentialReport. rewrite Hh, Hl.
  destruct (rowLoop_spec (headerLoop 0 headerLine ∅) lines 0
              (replicate (length lines) None)) as (rows & -> & Hlen & _ & Hat).
  - by rewrite length_replicate.
  - eapply Forall_impl; [exact Hwidth|]. simpl. intros line Hline.
    apply makeRow_total. intros c. rewrite Hline. by apply column_lt.
  - exists rows. rewrite length_replicate in Hlen. split_and!; [done..|].
    intros j line Hj. by apply Hat.
Qed.

(** The decoder ends, and it ends with rows or with an error: the row
    loop does not panic and no loop of the reader runs out of fuel. *)
Lemma parse_total content :
  (∃ rows, parseCsvCredentialReport content = Ok rows) ∨
  (∃ err, parseCsvCredentialReport content = Err err).
Proof.
  destruct (readRecord_total (Csv.NewReader content)) as [[[headerLine err] rdr] Hh].
  destruct err as [err|].
  { right. exists (CsvError err). unfold parseCsvCredentialReport, Csv.Read. by rewrite Hh. }
  destruct (ReadAll_loop_total (S (length (Csv.r rdr))) rdr []) as [[lines err] Hl]; [lia|].
  destruct err as [err|].
  { right. exists (CsvError err).
    unfold parseCsvCredentialReport, Csv.Read, Csv.ReadAll. by rewrite Hh, Hl. }
  left. destruct (parse_payload content headerLine lines) as (rows & H & _).
  - by exists rdr.
  - by exists rows.
Qed.

(** ** The serial-number pattern, by what it accepts *)

Lemma literal_Some p s rest : Serial.literal p s = Some rest ↔ s = p +:+ rest.
Proof.
  revert s. induction p as [|a p IH]; intros s; simpl.
  - split; [by intros [= ->]|by intros ->].
  - destruct s as [|b s]; [done|]. case_decide as Hab.
    + subst b. rewrite IH. split; [by intros ->|by intros [= ->]].
    + split; [done|]. by intros [= -> _].
Qed.

Lemma digits_spec s ds rest :
  Serial.digits s = (ds, rest) →
  s = ds +:+ rest ∧ allDigits ds = true.
Proof.
  revert ds rest. induction s as [|c s IH]; intros ds rest; simpl.
  - by intros [= <- <-].
  - destruct (Serial.isDigit c) eqn:Ec.
    + destruct (Serial.digits s) as [ds' rest'].
      intros [= <- <-]. destruct (IH _ _ eq_refl) as [-> Hds].
      simpl. by rewrite Ec, Hds.
    + by intros [= <- <-].
Qed.

Lemma digits_app account c rest :
  allDigits account = true → Serial.isDigit c = false →
  Serial.digits (account +:+ String c rest) = (account, String c rest).
Proof.
  intros Hacc Hc. induction account as [|a account IH]; simpl.
  - by rewrite Hc.
  - simpl in Hacc. apply andb_true_iff in Hacc as [-> Hacc]. by rewrite IH.
Qed.

Lemma dotStar_noLineFeed s : Serial.dotStar s = noLineFeed s.
Proof.
  induction s as [|c s IH]; simpl; [done|].
  case_decide; [by rewrite bool_decide_eq_true_2|by rewrite bool_decide_eq_false_2].
Qed.

(** [FindStringSubmatch] finds a match on the ARNs of MFA devices and
    on nothing else, and the submatch is the device name. *)
Lemma FindStringSubmatch_spec s m :
  Serial.FindStringSubmatch s = Some m ↔ ∃ name, matchesArn s name ∧ m = [s; name].
Proof.
  unfold Serial.FindStringSubmatch. split.
  - destruct (Serial.literal "arn:aws:iam::" s) as [rest1|] eqn:E1; [|done].
    cbn -[Serial.literal Serial.digits Serial.dotStar].
    apply literal_Some in E1.
    destruct (Serial.digits rest1) as [ds rest2] eqn:E2.
    apply digits_spec in E2 as [-> Hds].
    destruct (decide (ds = EmptyString)) as [|Hne]; [done|].
    destruct (Serial.literal ":mfa/" rest2) as [name|] eqn:E3; [|done].
    cbn -[Serial.literal Serial.digits Serial.dotStar].
    apply literal_Some in E3. subst rest2.
    destruct (Serial.dotStar name) eqn:E4; [|done].
    intros [= <-]. exists name. split; [|by rewrite E1].
    exists ds. by rewrite <- dotStar_noLineFeed.
  - intros (name & (account & Hne & Hds & Hname & ->) & ->). unfold arn.
    rewrite (proj2 (literal_Some "arn:aws:iam::" _ (account +:+ ":mfa/" +:+ name)))
      by done.
    cbn -[Serial.literal Serial.digits Serial.dotStar].
    change (":mfa/" +:+ name) with (String ":" ("mfa/" +:+ name)).
    rewrite digits_app by done.
    destruct (decide (account = EmptyString)); [done|].
    change (String ":" ("mfa/" +:+ name)) with (":mfa/" +:+ name).
    rewrite (proj2 (literal_Some ":mfa/" _ name)) by done.
    cbn -[Serial.literal Serial.digits Serial.dotStar].
    by rewrite dotStar_noLineFeed, Hname.
Qed.

(** An ARN names one device. *)
Lemma matchesArn_unique s name name' :
  matchesArn s name → matchesArn s name' → name = name'.
Proof.
  intros H H'.
  assert (Serial.FindStringSubmatch s = Some [s; name]) as E
    by (apply FindStringSubmatch_spec; eauto).
  assert (Serial.FindStringSubmatch s = Some [s; name']) as E'
    by (apply FindStringSubmatch_spec; eauto).
  congruence.
Qed.

Lemma FindStringSubmatch_None s :
  Serial.FindStringSubmatch s = None ↔ ∀ name, ¬ matchesArn s name.
Proof.
  split.
  - intros HN name Hm.
    assert (Serial.FindStringSubmatch s = Some [s; name]) as H
      by (apply FindStringSubmatch_spec; eauto).
    congruence.
  - intros Hno. destruct (Serial.FindStringSubmatch s) as [m|] eqn:E; [|done].
    apply FindStringSubmatch_spec in E as (name & Hm & _). by destruct (Hno name).
Qed.

(** ** The enrichment *)

Lemma mfaLoop_spec ids : ∀ accounts,
  ∃ accounts', mfaLoop (deviceOf <$> ids) accounts = Some accounts' ∧
    ∀ u, is_Some (accounts' !! u) ↔
         is_Some (accounts !! u) ∨
         ∃ id name, id ∈ ids ∧ matchesArn id name ∧ u = reportName name.
Proof.
  induction ids as [|id ids IH]; intros accounts.
  - exists accounts. split; [done|]. intros u. split; [by left|].
    intros [H|(id & name & Hin & _)]; [done|]. by apply elem_of_nil in Hin.
  - cbn -[Serial.FindStringSubmatch].
    destruct (Serial.FindStringSubmatch id) as [m|] eqn:E.
    + apply FindStringSubmatch_spec in E as (name & Hm & ->).
      cbn -[Serial.FindStringSubmatch].
      destruct (IH (<[reportName name := true]> accounts)) as (accounts' & Hloop & Hacc).
      exists accounts'. split; [exact Hloop|].
      intros u. rewrite Hacc. split.
      * intros [H|(id' & name' & Hin & Hm' & ->)].
        -- destruct (decide (reportName name = u)) as [<-|Hne].
           ++ right. exists id, name. split_and!; [left|done|done].
           ++ left. by rewrite lookup_insert_ne in H.
        -- right. exists id', name'. split_and!; [by right|done|done].
      * intros [H|(id' & name' & Hin & Hm' & ->)].
        -- left. destruct (decide (reportName name = u)) as [<-|Hne].
           ++ by rewrite lookup_insert_eq.
           ++ by rewrite lookup_insert_ne.
        -- apply elem_of_cons in Hin as [->|Hin].
           ++ left.
              rewrite (matchesArn_unique _ _ _ Hm' Hm).
              by rewrite lookup_insert_eq.
           ++ right. by exists id', name'.
    + destruct (IH accounts) as (accounts' & Hloop & Hacc).
      exists accounts'. split; [exact Hloop|].
      intros u. rewrite Hacc. split.
      * intros [H|(id' & name' & Hin & Hm' & ->)]; [by left|].
        right. exists id', name'. split_and!; [by right|done|done].
      * intros [H|(id' & name' & Hin & Hm' & ->)]; [by left|].
        apply elem_of_cons in Hin as [->|Hin].
        -- rewrite FindStringSubmatch_None in E. by destruct (E name').
        -- right. by exists id', name'.
Qed.

(** The entries of the set are all [true]. *)
Lemma mfaLoop_true devices : ∀ accounts accounts',
  mfaLoop devices accounts = Some accounts' →
  (∀ u b, accounts !! u = Some b → b = true) →
  ∀ u b, accounts' !! u = Some b → b = true.
Proof.
  induction devices as [|dev devices IH]; intros accounts accounts'.
  - by intros [= <-].
  - cbn -[Serial.FindStringSubmatch].
    destruct dev as [[[serial|]]|]; cbn -[Serial.FindStringSubmatch]; try done.
    destruct (Serial.FindStringSubmatch serial) as [m|]; [|by apply IH].
    case_bool_decide; [|by apply IH].
    destruct (m !! 1) as [name|]; cbn -[Serial.FindStringSubmatch]; [|done].
    intros Hloop Hacc. eapply IH; [exact Hloop|].
    intros u b. destruct (decide ((if decide (name = "root-account-mfa-device")
                                   then "<root_account>" else name) = u)) as [<-|Hne].
    + rewrite lookup_insert_eq. by intros [= <-].
    + rewrite lookup_insert_ne by done. apply Hacc.
Qed.

(** The row loop, when it does not panic, marks row by row. *)
Lemma enrichLoop_Some accounts (report report' : list (option ReportRow)) :
  enrichLoop accounts report = Some report' →
  report' = (λ p : option ReportRow, mark accounts <$> p) <$> report ∧
  Forall is_Some report.
Proof.
  revert report'. induction report as [|p report IH]; intros report'; simpl.
  - by intros [= <-].
  - destruct p as [row|]; simpl; [|done].
    destruct (enrichLoop accounts report) as [rest|]; simpl; [|done].
    intros [= <-]. destruct (IH _ eq_refl) as [-> Hall].
    split; [done|]. by constructor.
Qed.

Lemma enrichLoop_rows accounts (rows : list ReportRow) :
  enrichLoop accounts (Some <$> rows) = Some (Some <$> (mark accounts <$> rows)).
Proof.
  induction rows as [|row rows IH]; [done|].
  rewrite !fmap_cons. cbn [enrichLoop mbind option_bind]. fold (mark accounts row).
  by rewrite IH.
Qed.

(** Marking a row changes at most [MfaVirtual], and only to [true]. *)
Lemma mark_frame accounts row :
  User (mark accounts row) = User row ∧
  PasswordEnabled (mark accounts row) = PasswordEnabled row ∧
  PasswordLastUsed (mark accounts row) = PasswordLastUsed row ∧
  PasswordLastChanged (mark accounts row) = PasswordLastChanged row ∧
  MfaActive (mark accounts row) = MfaActive row ∧
  AccessKeys (mark accounts row) = AccessKeys row ∧
  (MfaVirtual row = true → MfaVirtual (mark accounts row) = true).
Proof. unfold mark. by destruct (accounts !! User row). Qed.

(** ** Flattening and reading back *)

Lemma foldl_snoc {A B} (f : A → B) (l : list A) (acc : list B) :
  foldl (λ out a, out ++ [f a]) acc l = acc ++ (f <$> l).
Proof.
  revert acc. induction l as [|a l IH]; intros acc; simpl.
  - by rewrite app_nil_r.
  - rewrite IH. by rewrite <- app_assoc.
Qed.

Lemma flattenAccessKeys_fmap accessKeys :
  flattenAccessKeys accessKeys = flattenAccessKey <$> accessKeys.
Proof. unfold flattenAccessKeys. by rewrite foldl_snoc. Qed.

Lemma flattenLoop_rows (rows : list ReportRow) out :
  flattenLoop (Some <$> rows) out = Some (out ++ (flattenRow <$> rows)).
Proof.
  revert out. induction rows as [|row rows IH]; intros out.
  - simpl. by rewrite app_nil_r.
  - rewrite !fmap_cons. cbn [flattenLoop mbind option_bind].
    rewrite IH. by rewrite <- app_assoc.
Qed.

Lemma mapM_fmap_Some {A B} (f : B → option A) (g : A → B) (l : list A) :
  (∀ x, f (g x) = Some x) → mapM f (g <$> l) = Some l.
Proof.
  intros Hfg. induction l as [|x l IH]; [done|].
  rewrite fmap_cons. cbn [mapM]. rewrite Hfg. simpl. by rewrite IH.
Qed.

Lemma unflatten_flattenAccessKey accessKey :
  unflattenAccessKey (flattenAccessKey accessKey) = Some accessKey.
Proof. by destruct accessKey. Qed.

Lemma unflatten_flattenRow row : unflattenRow (flattenRow row) = Some row.
Proof.
  destruct row as [u pe plu plc ma mv aks].
  unfold unflattenRow, flattenRow, getString, getBool, getList.
  cbn [User PasswordEnabled PasswordLastUsed PasswordLastChanged MfaActive
       MfaVirtual AccessKeys].
  rewrite flattenAccessKeys_fmap.
  repeat (rewrite ?lookup_insert_eq; rewrite ?lookup_insert_ne by done; simpl).
  rewrite lookup_singleton_eq. simpl.
  by rewrite (mapM_fmap_Some _ _ _ unflatten_flattenAccessKey).
Qed.

(** ** Parsed reports *)

Lemma parse_Ok_payload content report :
  parseCsvCredentialReport content = Ok report →
  ∃ headerLine lines, csvPayload content headerLine lines.
Proof.
  unfold parseCsvCredentialReport, csvPayload.
  destruct (Csv.Read (Csv.NewReader content)) as [[[headerLine [e|]] rdr]|]; try done.
  destruct (Csv.ReadAll rdr) as [[lines [e|]]|] eqn:E; try done.
  intros _. by exists headerLine, lines, rdr.
Qed.

Lemma Forall_is_Some_fmap {A} (l : list (option A)) :
  Forall is_Some l → ∃ l', l = Some <$> l'.
Proof.
  induction 1 as [|p l [x ->] _ [l' ->]]; [by exists []|]. by exists (x :: l').
Qed.

(** A parsed report has no nil entry, and no row of it is marked yet. *)
Lemma parse_rows content report :
  parseCsvCredentialReport content = Ok report →
  ∃ rows : list ReportRow, report = Some <$> rows ∧
    Forall (λ row, MfaVirtual row = false) rows.
Proof.
  intros Hp. destruct (parse_Ok_payload _ _ Hp) as (headerLine & lines & Hpay).
  destruct (parse_payload _ _ _ Hpay) as (report' & Hp' & Hlen & Hat).
  rewrite Hp in Hp'. injection Hp' as <-.
  assert (Hall : Forall (λ p, ∃ row, p = Some row ∧ MfaVirtual row = false) report).
  { apply Forall_lookup. intros j p Hj.
    destruct (lookup_lt_is_Some_2 lines j) as [line Hline];
      [apply lookup_lt_Some in Hj; lia|].
    destruct (Hat _ _ Hline) as (row & Hrow & Hrj).
    rewrite Hj in Hrj. injection Hrj as ->. exists row. split; [done|].
    unfold makeRow in Hrow.
    repeat match type of Hrow with
    | (cell ?h ?l ?c ≫= _) = Some _ =>
        destruct (cell h l c); simpl in Hrow; [|discriminate]
    end.
    by injection Hrow as <-. }
  clear -Hall. induction Hall as [|p report (row & -> & Hrow) _ (rows & -> & Hrows)].
  - by exists [].
  - exists (row :: rows). split; [done|]. by constructor.
Qed.

(** ** The reader on small inputs *)

Example reader_plain :
  Csv.ReadAll (Csv.NewReader (textOf ["a,b"; "1,2"; "3,4"]))
  = Some ([["a"; "b"]; ["1"; "2"]; ["3"; "4"]], None).
Proof. vm_compute. reflexivity. Qed.

Example reader_no_final_line_feed :
  Csv.ReadAll (Csv.NewReader (bytes_of_string "a,b"))
  = Some ([["a"; "b"]], None).
Proof. vm_compute. reflexivity. Qed.

Example reader_skips_empty_lines :
  Csv.ReadAll (Csv.NewReader (textOf ["a,b"; EmptyString; "1,2"; EmptyString]))
  = Some ([["a"; "b"]; ["1"; "2"]], None).
Proof. vm_compute. reflexivity. Qed.

Example reader_carriage_returns :
  Csv.ReadAll (Csv.NewReader
    (bytes_of_string "a,b" ++ [Csv.CR; Csv.LF] ++ bytes_of_string "1,2" ++ [Csv.CR]))
  = Some ([["a"; "b"]; ["1"; "2"]], None).
Proof. vm_compute. reflexivity. Qed.

Example reader_quoted_field :
  Csv.ReadAll (Csv.NewReader
    (bytes_of_string "a," ++ [Csv.Quote] ++ bytes_of_string "x,y" ++ [Csv.LF]
     ++ bytes_of_string "z" ++ [Csv.Quote; Csv.Quote] ++ bytes_of_string "w"
     ++ [Csv.Quote; Csv.LF]))
  = Some ([["a"; string_of_bytes (bytes_of_string "x,y" ++ [Csv.LF]
                                   ++ bytes_of_string "z" ++ [Csv.Quote]
                                   ++ bytes_of_string "w")]], None).
Proof. vm_compute. reflexivity. Qed.

Example reader_bare_quote :
  Csv.ReadAll (Csv.NewReader (bytes_of_string "a" ++ [Csv.Quote] ++ bytes_of_string "b,c"))
  = Some ([], Some Csv.ErrBareQuote).
Proof. vm_compute. reflexivity. Qed.

Example reader_open_quote :
  Csv.ReadAll (Csv.NewReader ([Csv.Quote] ++ bytes_of_string "a,b" ++ [Csv.LF]))
  = Some ([], Some Csv.ErrQuote).
Proof. vm_compute. reflexivity. Qed.

Example reader_ragged_rows :
  Csv.ReadAll (Csv.NewReader (textOf ["a,b"; "1,2"; "3"]))
  = Some ([], Some Csv.ErrFieldCount).
Proof. vm_compute. reflexivity. Qed.

(** The decoder on an empty payload, on a header alone, and on a line
    that is wider than the header. *)
Example parse_empty : parseCsvCredentialReport [] = Err (CsvError Csv.EOF).
Proof. vm_compute. reflexivity. Qed.

Example parse_header_only :
  parseCsvCredentialReport (textOf ["user,password_enabled"]) = Ok [].
Proof. vm_compute. reflexivity. Qed.

Example parse_ragged :
  parseCsvCredentialReport (textOf ["user,password_enabled"; "alice,true,extra"])
  = Err (CsvError Csv.ErrFieldCount).
Proof. vm_compute. reflexivity. Qed.

(** ** Plain CSV text is read back as it was written *)

Lemma IndexByte_None b c : c ∉ b → Csv.IndexByte b c = None.
Proof.
  induction b as [|x b IH]; [done|]. rewrite not_elem_of_cons. intros [Hne Hb].
  simpl. rewrite decide_False by done. by rewrite IH.
Qed.

Lemma IndexByte_app b c rest : c ∉ b → Csv.IndexByte (b ++ c :: rest) c = Some (length b).
Proof.
  induction b as [|x b IH]; simpl.
  - intros _. by rewrite decide_True.
  - rewrite not_elem_of_cons. intros [Hne Hb].
    rewrite decide_False by done. by rewrite IH.
Qed.

Lemma plainField_not_elem field c :
  plainField field →
  c = Csv.Comma ∨ c = Csv.Quote ∨ c = Csv.CR ∨ c = Csv.LF →
  c ∉ bytes_of_string field.
Proof.
  unfold plainField. rewrite Forall_forall. intros Hplain Hc Hin.
  destruct (Hplain _ Hin) as (? & ? & ? & ?).
  by destruct Hc as [->|[->|[->| ->]]].
Qed.

Lemma joinFields_not_elem fields c :
  Forall plainField fields →
  c = Csv.Quote ∨ c = Csv.CR ∨ c = Csv.LF → c ∉ joinFields fields.
Proof.
  intros Hplain Hc. induction Hplain as [|field fields Hf _ IH]; [apply not_elem_of_nil|].
  assert (c ∉ bytes_of_string field) by (apply plainField_not_elem; tauto).
  destruct fields as [|field' fields]; [done|].
  change (c ∉ bytes_of_string field ++ Csv.Comma :: joinFields (field' :: fields)).
  rewrite not_elem_of_app, not_elem_of_cons. split_and!; [done| |done].
  by destruct Hc as [->|[->| ->]].
Qed.

Lemma ReadSlice_line line rest :
  Csv.LF ∉ line → Csv.ReadSlice (line ++ Csv.LF :: rest) = (line ++ [Csv.LF], false, rest).
Proof.
  induction line as [|c line IH]; [done|]. simpl.
  rewrite not_elem_of_cons. intros [Hne Hl].
  rewrite decide_False by done. by rewrite IH.
Qed.

Lemma last_snoc_LF (line : bytes) : last (line ++ [Csv.LF]) = Some Csv.LF.
Proof. apply last_snoc. Qed.

Lemma readLine_line line rest :
  Csv.LF ∉ line → Csv.CR ∉ line →
  Csv.readLine (line ++ Csv.LF :: rest) = (line ++ [Csv.LF], false, rest).
Proof.
  intros HLF HCR. unfold Csv.readLine. rewrite ReadSlice_line by done.
  rewrite andb_false_r.
  destruct (bool_decide (2 ≤ length (line ++ [Csv.LF]))) eqn:E2; [|done].
  apply bool_decide_eq_true_1 in E2. rewrite length_app in E2. simpl in E2.
  rewrite (bool_decide_eq_false_2 (_ !! _ = Some Csv.CR)); [done|].
  intros Hl. apply HCR. rewrite length_app in Hl. simpl in Hl.
  rewrite lookup_app_l in Hl by lia. by apply list_elem_of_lookup_2 in Hl.
Qed.

Lemma renderRecord_cons line rest :
  (line ++ [Csv.LF]) ++ rest = line ++ Csv.LF :: rest.
Proof. by rewrite <- app_assoc. Qed.

Lemma nextLine_record fuel fields rest :
  plainRecord fields →
  Csv.nextLine (S fuel) (renderRecord fields ++ rest)
  = Some (renderRecord fields, false, rest).
Proof.
  intros [Hplain Hne]. unfold renderRecord. rewrite renderRecord_cons. simpl.
  rewrite readLine_line by (apply joinFields_not_elem; tauto).
  simpl. rewrite bool_decide_eq_false_2; [done|].
  unfold Csv.lengthNL. rewrite last_snoc_LF, bool_decide_eq_true_2 by done.
  rewrite length_app. simpl. destruct (joinFields fields); [done|simpl; lia].
Qed.

(** The field loop on the line of a record of plain fields. *)
Lemma parseField_record fields : ∀ fuel rd dst,
  Forall plainField fields → fields ≠ [] → length fields ≤ fuel →
  Csv.parseField fuel (renderRecord fields) rd dst = Some (dst ++ fields, None, rd).
Proof.
  induction fields as [|field fields IH]; intros fuel rd dst Hplain Hne Hfuel; [done|].
  apply Forall_cons in Hplain as [Hfield Hplain].
  destruct fuel as [|fuel]; [simpl in Hfuel; lia|].
  assert (Hq : Csv.Quote ∉ bytes_of_string field)
    by (apply plainField_not_elem; tauto).
  assert (Hc : Csv.Comma ∉ bytes_of_string field)
    by (apply plainField_not_elem; tauto).
  assert (Hback : string_of_bytes (bytes_of_string field) = field)
    by apply string_of_list_ascii_of_string.
  unfold renderRecord. destruct fields as [|field' fields].
  - (* the last field of the line *)
    cbn [joinFields Csv.parseField].
    assert (Hhead : head (bytes_of_string field ++ [Csv.LF]) ≠ Some Csv.Quote).
    { destruct (bytes_of_string field) as [|c b] eqn:Eb; [done|]. simpl.
      intros [= ->]. apply Hq. left. }
    rewrite bool_decide_eq_true_2 by done.
    rewrite (IndexByte_None (bytes_of_string field ++ [Csv.LF]) Csv.Comma).
    2:{ rewrite not_elem_of_app, not_elem_of_cons. split_and!; [done|done|].
        apply not_elem_of_nil. }
    unfold Csv.lengthNL. rewrite last_snoc_LF, bool_decide_eq_true_2 by done.
    rewrite length_app. simpl. rewrite Nat.add_sub, take_app_length.
    by rewrite (IndexByte_None _ Csv.Quote), Hback.
  - (* a field before a comma *)
    change (joinFields (field :: field' :: fields))
      with (bytes_of_string field ++ Csv.Comma :: joinFields (field' :: fields)).
    unfold renderRecord in IH.
    set (tail := joinFields (field' :: fields)) in *. clearbody tail.
    cbn [Csv.parseField].
    rewrite <- app_assoc. cbn [app].
    assert (Hhead : head (bytes_of_string field ++ Csv.Comma :: tail ++ [Csv.LF])
                    ≠ Some Csv.Quote).
    { destruct (bytes_of_string field) as [|c b] eqn:Eb; [done|]. simpl.
      intros [= ->]. apply Hq. left. }
    rewrite bool_decide_eq_true_2 by done.
    rewrite (IndexByte_app _ Csv.Comma) by done. rewrite take_app_length.
    rewrite (IndexByte_None _ Csv.Quote), Hback by done.
    rewrite <- drop_drop, drop_app_length. cbn [drop].
    rewrite IH; [by rewrite <- app_assoc|done|done|simpl in *; lia].
Qed.

Lemma renderRecord_length fields : length fields ≤ length (renderRecord fields).
Proof.
  unfold renderRecord. rewrite length_app. simpl.
  induction fields as [|field [|field' fields] IH]; simpl in *; [lia..|].
  rewrite length_app. simpl. lia.
Qed.

(** The reader on a record of plain fields at the start of its input. *)
Lemma readRecord_record fields rest fpr :
  plainRecord fields →
  Csv.readRecord {| Csv.r := renderRecord fields ++ rest; Csv.FieldsPerRecord := fpr |}
  = Some (fields,
          (Csv.checkFieldCount fpr fields None).1,
          {| Csv.r := rest;
             Csv.FieldsPerRecord := (Csv.checkFieldCount fpr fields None).2 |}).
Proof.
  intros Hrec. unfold Csv.readRecord. cbn [Csv.r Csv.FieldsPerRecord].
  rewrite nextLine_record by done.
  destruct Hrec as [Hplain Hne].
  rewrite parseField_record; [|done| |].
  - simpl. by destruct (Csv.checkFieldCount fpr fields None).
  - by intros ->.
  - pose proof (renderRecord_length fields). lia.
Qed.

Lemma ReadAll_loop_render lines : ∀ fuel n records,
  Forall plainRecord lines →
  Forall (λ line : list string, length line = n) lines →
  0 < n → length lines < fuel →
  Csv.ReadAll_loop fuel {| Csv.r := render lines; Csv.FieldsPerRecord := Z.of_nat n |}
    records
  = Some (records ++ lines, None).
Proof.
  induction lines as [|line lines IH]; intros fuel n records Hplain Hwidth Hn Hfuel.
  - destruct fuel as [|fuel]; [simpl in Hfuel; lia|]. simpl. by rewrite app_nil_r.
  - destruct fuel as [|fuel]; [simpl in Hfuel; lia|].
    apply Forall_cons in Hplain as [Hline Hplain].
    apply Forall_cons in Hwidth as [Hlen Hwidth].
    cbn [Csv.ReadAll_loop]. unfold render. rewrite fmap_cons. cbn [concat].
    rewrite readRecord_record by done.
    unfold Csv.checkFieldCount.
    rewrite bool_decide_eq_true_2 by lia.
    rewrite (bool_decide_eq_false_2 (_ ≠ _)) by (rewrite Hlen; auto).
    cbn [andb fst snd]. fold (render lines).
    rewrite IH; [by rewrite <- app_assoc|done..|simpl in Hfuel; lia].
Qed.

Lemma render_length lines : length lines ≤ length (render lines).
Proof.
  unfold render. induction lines as [|line lines IH]; [done|].
  rewrite fmap_cons. cbn [concat]. rewrite length_app.
  unfold renderRecord at 1. rewrite length_app. simpl. lia.
Qed.

(** A header and data records of plain fields, all of the header's width,
    written out line by line, form a CSV payload with that header and
    those records. *)
Lemma csvPayload_render headerLine lines :
  plainRecord headerLine → Forall plainRecord lines →
  Forall (λ line : list string, length line = length headerLine) lines →
  csvPayload (render (headerLine :: lines)) headerLine lines.
Proof.
  intros Hheader Hlines Hwidth.
  exists {| Csv.r := render lines;
            Csv.FieldsPerRecord := Z.of_nat (length headerLine) |}.
  unfold Csv.Read, Csv.NewReader, render. rewrite fmap_cons. cbn [concat].
  rewrite readRecord_record by done. split; [done|].
  unfold Csv.ReadAll. cbn [Csv.r]. fold (render lines).
  rewrite ReadAll_loop_render; [done..| |].
  - destruct Hheader as [_ Hne]. destruct headerLine; [done|simpl; lia].
  - pose proof (render_length lines). lia.
Qed.

(** ** The claims about the decoder *)

(** C3.  [parseCsvBool] returns true on the literal [true], written in
    lower case, and on no other string: [false], the empty string, [TRUE]
    and whatever else all map to false. *)
Theorem parseCsvBool_only_true :
  (∀ csv, parseCsvBool csv = true ↔ csv = "true") ∧
  (∀ csv, csv ≠ "true" → parseCsvBool csv = false) ∧
  parseCsvBool "false" = false ∧ parseCsvBool EmptyString = false ∧
  parseCsvBool "TRUE" = false ∧ parseCsvBool "true " = false.
Proof.
  split_and!; try done.
  - intros csv. unfold parseCsvBool. by rewrite bool_decide_eq_true.
  - intros csv Hne. unfold parseCsvBool. by rewrite bool_decide_eq_false.
Qed.

Lemma parseCsvBool_only_true_witness :
  "yes" ≠ "true" ∧ parseCsvBool "yes" = false.
Proof.
  split; [done|]. apply (proj1 (proj2 parseCsvBool_only_true)). done.
Defined.

(** C4.  On a CSV payload of a header and N data records the decoder
    returns N rows, and the i-th row is the one made from the i-th
    record: the order of the source is kept.  The text of a header line
    and N data lines of plain fields, all of the header's width, is such
    a payload. *)
Theorem parse_rows_in_source_order headerLine lines :
  (∀ content, csvPayload content headerLine lines →
     ∃ rows, parseCsvCredentialReport content = Ok rows ∧
       length rows = length lines ∧
       ∀ i line, lines !! i = Some line →
         ∃ row, makeRow (headerLoop 0 headerLine ∅) line = Some row ∧
                rows !! i = Some (Some row)) ∧
  (plainRecord headerLine → Forall plainRecord lines →
   Forall (λ line : list string, length line = length headerLine) lines →
   csvPayload (render (headerLine :: lines)) headerLine lines).
Proof. split; [intros content; apply parse_payload|apply csvPayload_render]. Qed.

Lemma sampleReport_payload : csvPayload sampleReport sampleHeader sampleLines.
Proof. eexists. split; vm_compute; reflexivity. Defined.

Lemma sample_plain :
  plainRecord sampleHeader ∧ Forall plainRecord sampleLines ∧
  Forall (λ line : list string, length line = length sampleHeader) sampleLines.
Proof. apply (bool_decide_unpack _). vm_compute. exact I. Defined.

Lemma parse_rows_in_source_order_witness :
  sampleReport = render (sampleHeader :: sampleLines) ∧
  csvPayload (render (sampleHeader :: sampleLines)) sampleHeader sampleLines ∧
  ∃ rows, parseCsvCredentialReport sampleReport = Ok rows ∧
    length rows = length sampleLines ∧
    ∀ i line, sampleLines !! i = Some line →
      ∃ row, makeRow (headerLoop 0 sampleHeader ∅) line = Some row ∧
             rows !! i = Some (Some row).
Proof.
  destruct (parse_rows_in_source_order sampleHeader sampleLines) as [Hrows Hrender].
  split_and!.
  - vm_compute. reflexivity.
  - apply Hrender; apply sample_plain.
  - apply (Hrows sampleReport). exact sampleReport_payload.
Defined.

(** C9.  The decoder is total and its indexing is in bounds: on every
    payload it returns rows or an error, never a panic and never without
    end; in a run that returns rows the header is not empty, every data
    record is as wide as the header, and every index that the header map
    gives, which is 0 for a name that is not in the header, lies inside
    the record. *)
Theorem parse_total_and_in_bounds content :
  ((∃ rows, parseCsvCredentialReport content = Ok rows) ∨
   (∃ err, parseCsvCredentialReport content = Err err)) ∧
  (∀ rows, parseCsvCredentialReport content = Ok rows →
     ∃ headerLine lines, csvPayload content headerLine lines ∧
       0 < length headerLine ∧
       ∀ line, line ∈ lines →
         length line = length headerLine ∧
         ∀ c, column (headerLoop 0 headerLine ∅) c < length line ∧
              (c ∈ headerLine →
                 headerLine !! column (headerLoop 0 headerLine ∅) c = Some c) ∧
              (c ∉ headerLine → column (headerLoop 0 headerLine ∅) c = 0) ∧
              is_Some (cell (headerLoop 0 headerLine ∅) line c)).
Proof.
  split; [apply parse_total|].
  intros rows Hp. destruct (parse_Ok_payload _ _ Hp) as (headerLine & lines & Hpay).
  exists headerLine, lines. split; [done|].
  destruct Hpay as (rdr & Hh & Hl).
  destruct (reader_widths _ _ _ _ Hh Hl) as [Hpos Hwidth].
  split; [done|]. intros line Hin.
  rewrite Forall_forall in Hwidth. specialize (Hwidth _ Hin).
  split; [done|]. intros c.
  assert (column (headerLoop 0 headerLine ∅) c < length line)
    by (rewrite Hwidth; by apply column_lt).
  split_and!;
    [done|apply column_named|apply column_absent|by apply lookup_lt_is_Some_2].
Qed.

Lemma parse_total_and_in_bounds_witness :
  parseCsvCredentialReport headlessReport ≠ Panic ∧
  ∃ headerLine lines, csvPayload headlessReport headerLine lines ∧
    0 < length headerLine ∧
    ∀ line, line ∈ lines →
      length line = length headerLine ∧
      ∀ c, column (headerLoop 0 headerLine ∅) c < length line ∧
           (c ∈ headerLine →
              headerLine !! column (headerLoop 0 headerLine ∅) c = Some c) ∧
           (c ∉ headerLine → column (headerLoop 0 headerLine ∅) c = 0) ∧
           is_Some (cell (headerLoop 0 headerLine ∅) line c).
Proof.
  destruct (parseCsvCredentialReport headlessReport) as [rows| | |] eqn:E;
    [|vm_compute in E; discriminate E..].
  split; [done|].
  exact (proj2 (parse_total_and_in_bounds headlessReport) rows E).
Defined.

(** C1, as the code has it.  A column that the header does not name makes
    no parse fail: on a CSV payload of a header and N data records the
    decoder returns N rows whatever the header names, and a field whose
    column is missing is read at index 0, the first field of the record,
    which every record has. *)
Theorem missing_column_reads_first_field content headerLine lines c :
  csvPayload content headerLine lines →
  c ∉ headerLine →
  ∃ rows, parseCsvCredentialReport content = Ok rows ∧
    length rows = length lines ∧
    ∀ i line, lines !! i = Some line →
      is_Some (head line) ∧
      cell (headerLoop 0 headerLine ∅) line c = head line ∧
      ∃ row, makeRow (headerLoop 0 headerLine ∅) line = Some row ∧
             rows !! i = Some (Some row).
Proof.
  intros Hpay Hc.
  destruct (parse_payload _ _ _ Hpay) as (rows & Hp & Hlen & Hat).
  exists rows. split_and!; [done..|]. intros i line Hline.
  destruct Hpay as (rdr & Hh & Hl).
  destruct (reader_widths _ _ _ _ Hh Hl) as [Hpos Hwidth].
  rewrite Forall_lookup in Hwidth. specialize (Hwidth _ _ Hline). simpl in Hwidth.
  split_and!.
  - destruct line; [simpl in Hwidth; lia|done].
  - unfold cell. rewrite column_absent by done. by destruct line.
  - by apply Hat.
Qed.

Lemma headlessReport_payload : csvPayload headlessReport headlessHeader headlessLines.
Proof. eexists. split; vm_compute; reflexivity. Defined.

Lemma user_not_in_headlessHeader : "user" ∉ headlessHeader.
Proof. apply (bool_decide_unpack _). vm_compute. exact I. Defined.

Lemma missing_column_reads_first_field_witness :
  ∃ rows, parseCsvCredentialReport headlessReport = Ok rows ∧
    length rows = length headlessLines ∧
    ∀ i line, headlessLines !! i = Some line →
      is_Some (head line) ∧
      cell (headerLoop 0 headlessHeader ∅) line "user" = head line ∧
      ∃ row, makeRow (headerLoop 0 headlessHeader ∅) line = Some row ∧
             rows !! i = Some (Some row).
Proof.
  apply (missing_column_reads_first_field headlessReport headlessHeader headlessLines "user").
  - exact headlessReport_payload.
  - exact user_not_in_headlessHeader.
Defined.

(** C1, as the specification states it, fails: the header of
    [headlessReport] has no column [user], yet the decoder returns the
    row of its one line, with the ARN of the first column as the user,
    and the read operation succeeds and stores that row. *)
Lemma missing_user_column_is_accepted :
  ("user" ∉ headlessHeader) ∧
  csvPayload headlessReport headlessHeader headlessLines ∧
  parseCsvCredentialReport headlessReport = Ok [Some headlessRow] ∧
  ∃ w, resourceAwsIamCredentialReportRead 1 (readyService headlessReport []) newWorld
       = (w, Ok ()) ∧
       fields (d w) !! "report" = Some (VList [flattenRow headlessRow]).
Proof.
  assert (Hparse : parseCsvCredentialReport headlessReport = Ok [Some headlessRow])
    by (vm_compute; reflexivity).
  split_and!.
  - exact user_not_in_headlessHeader.
  - exact headlessReport_payload.
  - exact Hparse.
  - unfold resourceAwsIamCredentialReportRead, readyService.
    cbn [GenerateCredentialReport Retry attempt GetCredentialReport ListVirtualMFADevices].
    rewrite Hparse.
    cbn [enrich mfaLoop enrichLoop mbind option_bind flattenCredentialReport flattenLoop
         app].
    eexists. split; [reflexivity|]. apply lookup_insert_eq.
Qed.

(** ** The claims about the enrichment *)

Lemma mfaLoop_app devices1 devices2 accounts :
  mfaLoop (devices1 ++ devices2) accounts = mfaLoop devices1 accounts ≫= mfaLoop devices2.
Proof.
  revert accounts. induction devices1 as [|dev devices1 IH]; intros accounts; [done|].
  cbn -[Serial.FindStringSubmatch].
  destruct dev as [[[serial|]]|]; cbn -[Serial.FindStringSubmatch]; try done.
  destruct (Serial.FindStringSubmatch serial) as [m|]; [|by apply IH].
  case_bool_decide; [|by apply IH].
  destruct (m !! 1) as [name|]; cbn -[Serial.FindStringSubmatch]; [|done].
  apply IH.
Qed.

(** An identifier that is no ARN of an MFA device is passed over. *)
Lemma enrich_skip ids1 id ids2 report :
  (∀ name, ¬ matchesArn id name) →
  enrich (deviceOf <$> (ids1 ++ id :: ids2)) report
  = enrich (deviceOf <$> (ids1 ++ ids2)) report.
Proof.
  intros Hno. apply FindStringSubmatch_None in Hno.
  unfold enrich. rewrite !fmap_app, !mfaLoop_app, fmap_cons.
  destruct (mfaLoop (deviceOf <$> ids1) ∅) as [accounts|]; [|done].
  cbn -[Serial.FindStringSubmatch]. by rewrite Hno.
Qed.

(** C5.  The identifiers that are ARNs of MFA devices put the names of
    their devices into the set, the root device under the name that the
    report uses for the root account; the rows whose user is in the set
    have [MfaVirtual] set, the other rows are as before; an identifier
    that is no such ARN adds nothing, changes no row, and raises no
    error. *)
Theorem enrichment_marks_listed_users (ids : list string) (rows : list ReportRow) :
  ∃ accounts,
    mfaLoop (deviceOf <$> ids) ∅ = Some accounts ∧
    (∀ u, is_Some (accounts !! u) ↔
          ∃ id name, id ∈ ids ∧ matchesArn id name ∧ u = reportName name) ∧
    (∀ u b, accounts !! u = Some b → b = true) ∧
    enrich (deviceOf <$> ids) (Some <$> rows) = Some (Some <$> (mark accounts <$> rows)) ∧
    (∀ row, is_Some (accounts !! User row) → MfaVirtual (mark accounts row) = true) ∧
    (∀ row, accounts !! User row = None → mark accounts row = row) ∧
    (∀ ids1 id ids2 report, ids = ids1 ++ id :: ids2 →
       (∀ name, ¬ matchesArn id name) →
       enrich (deviceOf <$> ids) report = enrich (deviceOf <$> (ids1 ++ ids2)) report).
Proof.
  destruct (mfaLoop_spec ids ∅) as (accounts & Hloop & Hacc).
  exists accounts. split_and!.
  - done.
  - intros u. rewrite Hacc. split; [|by right].
    intros [H|H]; [|done]. rewrite lookup_empty in H. by destruct H.
  - apply (mfaLoop_true _ _ _ Hloop). intros u b. by rewrite lookup_empty.
  - unfold enrich. rewrite Hloop. simpl. apply enrichLoop_rows.
  - intros row [b Hb]. unfold mark. by rewrite Hb.
  - intros row Hn. unfold mark. by rewrite Hn.
  - intros ids1 id ids2 report -> Hno. by apply enrich_skip.
Qed.

Lemma not_an_arn : ∀ name, ¬ matchesArn "not-an-arn" name.
Proof. apply FindStringSubmatch_None. vm_compute. reflexivity. Defined.

Lemma enrichment_marks_listed_users_witness :
  enrich (deviceOf <$> sampleSerials) (Some <$> sampleRows)
  = Some (Some <$> [sampleRow "<root_account>" true; sampleRow "alice" true;
                    sampleRow "bob" false; sampleRow "carol" true]) ∧
  enrich (deviceOf <$> sampleSerials) (Some <$> sampleRows)
  = enrich (deviceOf <$> ["arn:aws:iam::123456789012:mfa/alice";
                          "arn:aws:iam::123456789012:mfa/root-account-mfa-device"])
      (Some <$> sampleRows).
Proof.
  destruct (enrichment_marks_listed_users sampleSerials sampleRows)
    as (accounts & Hloop & _ & _ & Henrich & _ & _ & Hskip).
  split.
  - rewrite Henrich. vm_compute in Hloop. injection Hloop as <-. vm_compute. reflexivity.
  - apply (Hskip ["arn:aws:iam::123456789012:mfa/alice"] "not-an-arn"
             ["arn:aws:iam::123456789012:mfa/root-account-mfa-device"]).
    + reflexivity.
    + exact not_an_arn.
Defined.

(** C10.  The enrichment changes nothing but [MfaVirtual]: it ends
    without panic on the devices of a listing and the rows of a report,
    and whenever it ends, the report has as many rows as before, in the
    same order, every row has its user, its password and MFA fields and
    its access keys as before, and a row that was marked stays marked. *)
Theorem enrichment_frame devices (report : list (option ReportRow)) :
  (∀ ids rows, devices = deviceOf <$> ids → report = Some <$> rows →
     is_Some (enrich devices report)) ∧
  (∀ report', enrich devices report = Some report' →
     length report' = length report ∧
     ∀ i row, report !! i = Some (Some row) →
       ∃ row', report' !! i = Some (Some row') ∧
         User row' = User row ∧
         PasswordEnabled row' = PasswordEnabled row ∧
         PasswordLastUsed row' = PasswordLastUsed row ∧
         PasswordLastChanged row' = PasswordLastChanged row ∧
         MfaActive row' = MfaActive row ∧
         AccessKeys row' = AccessKeys row ∧
         (MfaVirtual row = true → MfaVirtual row' = true) ∧
         (MfaVirtual row' = MfaVirtual row ∨ MfaVirtual row' = true)).
Proof.
  split.
  - intros ids rows -> ->.
    destruct (mfaLoop_spec ids ∅) as (accounts & Hloop & _).
    unfold enrich. rewrite Hloop. simpl. by rewrite enrichLoop_rows.
  - intros report'. unfold enrich.
    destruct (mfaLoop devices ∅) as [accounts|]; simpl; [|done].
    intros H. apply enrichLoop_Some in H as [-> _].
    split; [by rewrite length_fmap|].
    intros i row Hi. exists (mark accounts row).
    rewrite list_lookup_fmap, Hi. simpl.
    pose proof (mark_frame accounts row) as (? & ? & ? & ? & ? & ? & ?).
    split_and!; try done.
    unfold mark. destruct (accounts !! User row); [by right|by left].
Qed.

Lemma enrichment_frame_witness :
  is_Some (enrich (deviceOf <$> sampleSerials) (Some <$> sampleRows)) ∧
  ∃ row', (Some <$> [sampleRow "<root_account>" true; sampleRow "alice" true;
                     sampleRow "bob" false; sampleRow "carol" true]) !! 3
          = Some (Some row') ∧
    User row' = "carol" ∧ MfaVirtual row' = true.
Proof.
  destruct (enrichment_frame (deviceOf <$> sampleSerials) (Some <$> sampleRows))
    as [Htotal Hframe].
  split; [by apply (Htotal sampleSerials sampleRows)|].
  destruct (Hframe (Some <$> [sampleRow "<root_account>" true; sampleRow "alice" true;
                              sampleRow "bob" false; sampleRow "carol" true]))
    as [_ Hrow]; [vm_compute; reflexivity|].
  destruct (Hrow 3 (sampleRow "carol" true) eq_refl)
    as (row' & Hlook & Huser & _ & _ & _ & _ & _ & Hmfa & _).
  exists row'. split_and!; [exact Hlook|exact Huser|by apply Hmfa].
Defined.

(** ** The claims about flattening *)

(** C6.  Flattening is a function of the rows that keeps their number
    and order, and it loses nothing: reading the flattened maps back
    field by field gives the rows that were flattened. *)
Theorem flatten_lossless (rows : list ReportRow) :
  ∃ out, flattenCredentialReport (Some <$> rows) = Some out ∧
    length out = length rows ∧
    (∀ i row, rows !! i = Some row → out !! i = Some (flattenRow row)) ∧
    (∀ row, unflattenRow (flattenRow row) = Some row) ∧
    unflattenCredentialReport out = Some rows.
Proof.
  exists (flattenRow <$> rows). unfold flattenCredentialReport.
  rewrite flattenLoop_rows. split_and!.
  - done.
  - by rewrite length_fmap.
  - intros i row Hi. by rewrite list_lookup_fmap, Hi.
  - apply unflatten_flattenRow.
  - apply mapM_fmap_Some, unflatten_flattenRow.
Qed.

Lemma flatten_lossless_witness :
  ∃ out, flattenCredentialReport (Some <$> sampleRows) = Some out ∧
    length out = 4 ∧
    out !! 1 = Some (flattenRow (sampleRow "alice" false)) ∧
    unflattenCredentialReport out = Some sampleRows.
Proof.
  destruct (flatten_lossless sampleRows) as (out & Hflat & Hlen & Hat & _ & Hback).
  exists out. split_and!; [exact Hflat|exact Hlen|by apply Hat|exact Hback].
Defined.

(** ** One attempt, and the loop around it *)

Section Operations.

Context (iamconn : IAMAPI).

(** Give the events of a step and show that none of them is a write. *)
Local Ltac events evs := exists evs; split; [by repeat constructor|].

(** An attempt calls the get endpoint once, keeps the identifier, and
    writes the field [report], as its last step, exactly when it returns
    nil. *)
Lemma attempt_spec w w' res :
  attempt iamconn w = (w', res) →
  Id (d w') = Id (d w) ∧ getCalls w' = S (getCalls w) ∧
  ∃ evs, Forall (λ e, isWrite e = false) evs ∧
    match res with
    | Ok None =>
        ∃ flat, d w' = Set_ (d w) "report" (VList flat) ∧
                trace w' = trace w ++ evs ++ [WriteField "report" (VList flat)]
    | _ => d w' = d w ∧ trace w' = trace w ++ evs
    end.
Proof.
  unfold attempt.
  destruct (GetCredentialReport iamconn (getCalls w)) as [err|content].
  { intros [= <- <-]. split_and!; [done..|].
    events [CallGetCredentialReport]. by destruct (classify err). }
  destruct (parseCsvCredentialReport content) as [report|err| |].
  2-4: intros [= <- <-]; split_and!; [done..|];
       events [CallGetCredentialReport; LogPrintf content];
       simpl; by rewrite <- app_assoc.
  cbn [listCalls emit callGet].
  destruct (ListVirtualMFADevices iamconn (listCalls w)) as [err|devices].
  { intros [= <- <-]. split_and!; [done..|].
    events [CallGetCredentialReport; LogPrintf content; CallListVirtualMFADevices].
    simpl. by rewrite <- !app_assoc. }
  destruct (enrich devices report) as [report'|];
    [destruct (flattenCredentialReport report') as [flat|]|].
  2-3: intros [= <- <-]; split_and!; [done..|];
       events [CallGetCredentialReport; LogPrintf content; CallListVirtualMFADevices];
       simpl; by rewrite <- !app_assoc.
  intros [= <- <-]. split_and!; [done..|].
  events [CallGetCredentialReport; LogPrintf content; CallListVirtualMFADevices].
  exists flat. split; [done|]. simpl. by rewrite <- !app_assoc.
Qed.

(** The loop writes the field [report] once, as the last thing it does,
    when it ends with success, and not at all when it ends otherwise. *)
Lemma Retry_spec budget : ∀ w w' res,
  Retry budget (attempt iamconn) w = (w', res) →
  Id (d w') = Id (d w) ∧ getCalls w ≤ getCalls w' ∧
  ∃ evs, Forall (λ e, isWrite e = false) evs ∧
    match res with
    | Ok _ =>
        ∃ flat, d w' = Set_ (d w) "report" (VList flat) ∧
                trace w' = trace w ++ evs ++ [WriteField "report" (VList flat)]
    | _ => d w' = d w ∧ trace w' = trace w ++ evs
    end.
Proof.
  induction budget as [|budget IH]; intros w w' res; simpl.
  { intros [= <- <-]. split_and!; [done..|]. exists []. by rewrite app_nil_r. }
  destruct (attempt iamconn w) as [w1 res1] eqn:E.
  apply attempt_spec in E as (Hid & Hget & evs & Hevs & Hres).
  destruct res1 as [[[err|err]|]|err| |].
  2-6: intros [= <- <-]; split_and!; [done|lia|]; by exists evs.
  intros H. apply IH in H as (Hid' & Hget' & evs' & Hevs' & Hres').
  destruct Hres as [Hd Htr].
  split_and!; [congruence|lia|]. exists (evs ++ evs').
  split; [by apply Forall_app|].
  rewrite Hd, Htr in Hres'.
  destruct res as [?|?| |];
    [destruct Hres' as (flat & ? & ->); exists flat|destruct Hres' as [? ->]..];
    (split; [done|]); by rewrite <- !app_assoc.
Qed.

(** ** The claims about the operations *)

Lemma attempt_get_error w err :
  GetCredentialReport iamconn (getCalls w) = inl err →
  attempt iamconn w = (callGet w, Ok (Some (classify err))).
Proof. intros H. unfold attempt. by rewrite H. Qed.

Lemma attempt_parse_error w content err :
  GetCredentialReport iamconn (getCalls w) = inr content →
  parseCsvCredentialReport content = Err err →
  attempt iamconn w
  = (emit (LogPrintf content) (callGet w), Ok (Some (NonRetryableError err))).
Proof. intros H1 H2. unfold attempt. by rewrite H1, H2. Qed.

Lemma attempt_list_error w content report err :
  GetCredentialReport iamconn (getCalls w) = inr content →
  parseCsvCredentialReport content = Ok report →
  ListVirtualMFADevices iamconn (listCalls w) = inl err →
  attempt iamconn w
  = (callList (emit (LogPrintf content) (callGet w)), Ok (Some (NonRetryableError err))).
Proof.
  intros H1 H2 H3. unfold attempt. rewrite H1, H2.
  cbn [listCalls emit callGet]. by rewrite H3.
Qed.

Lemma attempt_success w content report devices report' flat :
  GetCredentialReport iamconn (getCalls w) = inr content →
  parseCsvCredentialReport content = Ok report →
  ListVirtualMFADevices iamconn (listCalls w) = inr devices →
  enrich devices report = Some report' →
  flattenCredentialReport report' = Some flat →
  attempt iamconn w
  = (writeField "report" (VList flat) (callList (emit (LogPrintf content) (callGet w))),
     Ok None).
Proof.
  intros H1 H2 H3 H4 H5. unfold attempt. rewrite H1, H2.
  cbn [listCalls emit callGet]. by rewrite H3, H4, H5.
Qed.

Lemma polls_spec k : ∀ w,
  getCalls (polls k w) = getCalls w + k ∧ listCalls (polls k w) = listCalls w ∧
  d (polls k w) = d w.
Proof.
  induction k as [|k IH]; intros w; simpl; [by rewrite Nat.add_0_r|].
  destruct (IH (callGet w)) as (-> & -> & ->). simpl. split_and!; [lia|done..].
Qed.

(** While the report is in progress the loop goes round. *)
Lemma Retry_polls k : ∀ n w,
  inProgress iamconn w k →
  Retry (k + n) (attempt iamconn) w = Retry n (attempt iamconn) (polls k w).
Proof.
  induction k as [|k IH]; intros n w Hk; [done|].
  destruct (Hk 0) as [message Hget]; [lia|]. rewrite Nat.add_0_r in Hget.
  cbn [Nat.add Retry polls]. rewrite (attempt_get_error _ _ Hget).
  cbn [classify]. rewrite decide_True by done. apply IH.
  intros i Hi. destruct (Hk (S i)) as [message' Hget']; [lia|].
  exists message'. rewrite <- Hget'. f_equal. simpl. lia.
Qed.

Lemma classify_other err : otherError err → classify err = NonRetryableError err.
Proof.
  intros Hother. destruct err as [|code message| |]; try done. simpl.
  case_decide as Hc; [|done]. subst code. by destruct (Hother message).
Qed.

(** With well-formed device listings, an attempt ends with a result. *)
Lemma attempt_total w :
  listsDevices iamconn → ∃ res, (attempt iamconn w).2 = Ok res.
Proof.
  intros Hlists. unfold attempt.
  destruct (GetCredentialReport iamconn (getCalls w)) as [err|content]; [by eexists|].
  destruct (parse_total content) as [[report Hp]|[err Hp]]; rewrite Hp; [|by eexists].
  cbn [listCalls emit callGet].
  destruct (ListVirtualMFADevices iamconn (listCalls w)) as [err|devices] eqn:El;
    [by eexists|].
  destruct (Hlists _ _ El) as [ids ->].
  destruct (parse_rows _ _ Hp) as (rows & -> & _).
  destruct (mfaLoop_spec ids ∅) as (accounts & Hloop & _).
  unfold enrich. rewrite Hloop. simpl. rewrite enrichLoop_rows.
  unfold flattenCredentialReport. rewrite flattenLoop_rows. by eexists.
Qed.

Lemma Retry_total budget : ∀ w,
  listsDevices iamconn →
  (Retry budget (attempt iamconn) w).2 = Ok () ∨
  ∃ err, (Retry budget (attempt iamconn) w).2 = Err err.
Proof.
  induction budget as [|budget IH]; intros w Hlists; simpl; [right; by eexists|].
  destruct (attempt_total w Hlists) as [res Hres].
  destruct (attempt iamconn w) as [w1 res1]. simpl in Hres. subst res1.
  destruct res as [[err|err]|]; [by apply IH|right; by eexists|by left].
Qed.

(** The read operation as a whole: it keeps the identifier, and it writes
    the field [report] once, last, when it returns nil, and never when it
    does not. *)
Lemma Read_spec budget w w' res :
  resourceAwsIamCredentialReportRead budget iamconn w = (w', res) →
  Id (d w') = Id (d w) ∧
  ∃ evs, Forall (λ e, isWrite e = false) evs ∧
    match res with
    | Ok _ =>
        ∃ flat, d w' = Set_ (d w) "report" (VList flat) ∧
                trace w' = trace w ++ evs ++ [WriteField "report" (VList flat)]
    | _ => d w' = d w ∧ trace w' = trace w ++ evs
    end.
Proof.
  unfold resourceAwsIamCredentialReportRead.
  destruct (GenerateCredentialReport iamconn) as [err|].
  { intros [= <- <-]. split; [done|]. exists [CallGenerateCredentialReport].
    split; [by repeat constructor|]. done. }
  intros H. apply Retry_spec in H as (Hid & _ & evs & Hevs & Hres).
  split; [done|]. exists (CallGenerateCredentialReport :: evs).
  split; [by constructor|].
  destruct res as [?|?| |];
    [destruct Hres as (flat & ? & ->); exists flat|destruct Hres as [? ->]..];
    (split; [done|]); simpl; by rewrite <- !app_assoc.
Qed.

(** C2.  The polling loop.  Let the get endpoint answer its first [k]
    calls with the code [ReportInProgress].  If the next call is within
    the budget and returns the report, the read succeeds and stores the
    parsed, enriched and flattened report.  If the budget is used up by
    then, the read fails with the timeout error.  If the next call, or
    the parse, or the device listing fails with another error, the read
    fails with that error at once, with no further call. *)
Theorem polling_loop w budget k :
  GenerateCredentialReport iamconn = None →
  inProgress iamconn w k →
  (k < budget → ∀ content report ids,
     GetCredentialReport iamconn (getCalls w + k) = inr content →
     parseCsvCredentialReport content = Ok report →
     ListVirtualMFADevices iamconn (listCalls w) = inr (deviceOf <$> ids) →
     ∃ w' report' flat,
       resourceAwsIamCredentialReportRead budget iamconn w = (w', Ok ()) ∧
       enrich (deviceOf <$> ids) report = Some report' ∧
       flattenCredentialReport report' = Some flat ∧
       d w' = Set_ (d w) "report" (VList flat) ∧
       getCalls w' = getCalls w + k + 1) ∧
  (budget ≤ k →
     ∃ w', resourceAwsIamCredentialReportRead budget iamconn w = (w', Err TimeoutError) ∧
           d w' = d w ∧ getCalls w' = getCalls w + budget) ∧
  (k < budget → ∀ err,
     GetCredentialReport iamconn (getCalls w + k) = inl err → otherError err →
     ∃ w', resourceAwsIamCredentialReportRead budget iamconn w = (w', Err err) ∧
           d w' = d w ∧ getCalls w' = getCalls w + k + 1) ∧
  (k < budget → ∀ content err,
     GetCredentialReport iamconn (getCalls w + k) = inr content →
     parseCsvCredentialReport content = Err err →
     ∃ w', resourceAwsIamCredentialReportRead budget iamconn w = (w', Err err) ∧
           d w' = d w ∧ getCalls w' = getCalls w + k + 1) ∧
  (k < budget → ∀ content report err,
     GetCredentialReport iamconn (getCalls w + k) = inr content →
     parseCsvCredentialReport content = Ok report →
     ListVirtualMFADevices iamconn (listCalls w) = inl err →
     ∃ w', resourceAwsIamCredentialReportRead budget iamconn w = (w', Err err) ∧
           d w' = d w ∧ getCalls w' = getCalls w + k + 1).
Proof.
  intros Hgen Hk. unfold resourceAwsIamCredentialReportRead. rewrite Hgen.
  set (w1 := emit CallGenerateCredentialReport w).
  assert (Hk1 : ∀ j, j ≤ k → inProgress iamconn w1 j).
  { intros j Hj i Hi. apply Hk. lia. }
  destruct (polls_spec k w1) as (Hg & Hl & Hd). simpl in Hg, Hl, Hd.
  assert (Hsplit : k < budget → budget = k + S (budget - S k)) by lia.
  split_and!.
  - intros Hlt content report ids Hget Hparse Hlist.
    destruct (parse_rows _ _ Hparse) as (rows & -> & _).
    destruct (mfaLoop_spec ids ∅) as (accounts & Hloop & _).
    assert (Henrich : enrich (deviceOf <$> ids) (Some <$> rows)
                      = Some (Some <$> (mark accounts <$> rows))).
    { unfold enrich. rewrite Hloop. simpl. apply enrichLoop_rows. }
    assert (Hflat : flattenCredentialReport (Some <$> (mark accounts <$> rows))
                    = Some (flattenRow <$> (mark accounts <$> rows))).
    { unfold flattenCredentialReport. by rewrite flattenLoop_rows. }
    rewrite (Hsplit Hlt), Retry_polls by (by apply Hk1). cbn [Retry].
    erewrite attempt_success; [| |exact Hparse| |exact Henrich|exact Hflat].
    + eexists _, _, _. split_and!; [reflexivity|done..| |].
      * simpl. by rewrite Hd.
      * simpl. rewrite Hg. lia.
    + by rewrite Hg.
    + by rewrite Hl.
  - intros Hle. pose proof (Retry_polls budget 0 w1 (Hk1 _ Hle)) as HR.
    rewrite Nat.add_0_r in HR. rewrite HR. simpl.
    destruct (polls_spec budget w1) as (Hg' & _ & Hd').
    eexists. split_and!; [reflexivity|done..].
  - intros Hlt err Hget Hother.
    rewrite (Hsplit Hlt), Retry_polls by (by apply Hk1). cbn [Retry].
    rewrite attempt_get_error with (err := err) by (by rewrite Hg).
    rewrite classify_other by done.
    eexists. split_and!; [reflexivity|done|]. simpl. rewrite Hg. lia.
  - intros Hlt content err Hget Hparse.
    rewrite (Hsplit Hlt), Retry_polls by (by apply Hk1). cbn [Retry].
    rewrite attempt_parse_error with (content := content) (err := err)
      by (done || by rewrite Hg).
    eexists. split_and!; [reflexivity|done|]. simpl. rewrite Hg. lia.
  - intros Hlt content report err Hget Hparse Hlist.
    rewrite (Hsplit Hlt), Retry_polls by (by apply Hk1). cbn [Retry].
    rewrite attempt_list_error with (content := content) (report := report) (err := err)
      by (done || by rewrite ?Hg, ?Hl).
    eexists. split_and!; [reflexivity|done|]. simpl. rewrite Hg. lia.
Qed.

(** C7.  The read operation is all or nothing.  Whatever step fails, the
    request to generate the report included, the read returns the error
    and leaves the resource data as it found it, with no write among its
    events; when no step fails it writes the field [report] once, as its
    last event.  With well-formed device listings it ends in one of these
    two ways. *)
Theorem read_is_all_or_nothing budget w w' res :
  resourceAwsIamCredentialReportRead budget iamconn w = (w', res) →
  (∀ err, GenerateCredentialReport iamconn = Some err →
     res = Err err ∧ getCalls w' = getCalls w) ∧
  (listsDevices iamconn → res = Ok () ∨ ∃ err, res = Err err) ∧
  ∃ evs, Forall (λ e, isWrite e = false) evs ∧
    match res with
    | Ok _ =>
        ∃ flat, d w' = Set_ (d w) "report" (VList flat) ∧
                trace w' = trace w ++ evs ++ [WriteField "report" (VList flat)]
    | _ => d w' = d w ∧ trace w' = trace w ++ evs
    end.
Proof.
  intros Hread. split_and!.
  - intros err Hgen. unfold resourceAwsIamCredentialReportRead in Hread.
    rewrite Hgen in Hread. by injection Hread as <- <-.
  - intros Hlists. unfold resourceAwsIamCredentialReportRead in Hread.
    destruct (GenerateCredentialReport iamconn) as [err|].
    + injection Hread as <- <-. right. by eexists.
    + pose proof (Retry_total budget
                    (emit CallGenerateCredentialReport w) Hlists) as Htotal.
      by rewrite Hread in Htotal.
  - by apply Read_spec in Hread as [_ Hspec].
Qed.

(** C8.  Create and update set the identifier of the resource to the
    constant [iam-credential-report], whatever the service answers and
    however the read that follows ends; delete returns nil and leaves the
    state as it is, with no event, so with no call of the service. *)
Theorem update_sets_constant_id_and_delete_is_noop budget w :
  Id (d (resourceAwsIamCredentialReportUpdate budget iamconn w).1)
    = "iam-credential-report" ∧
  Id (d (resourceAwsIamCredentialReportCreate budget iamconn w).1)
    = "iam-credential-report" ∧
  (∃ evs, trace (resourceAwsIamCredentialReportUpdate budget iamconn w).1
          = trace w ++ WriteId "iam-credential-report" :: evs) ∧
  resourceAwsIamCredentialReportDelete iamconn w = (w, Ok ()).
Proof.
  assert (Hupd : Id (d (resourceAwsIamCredentialReportUpdate budget iamconn w).1)
                 = "iam-credential-report" ∧
                 ∃ evs, trace (resourceAwsIamCredentialReportUpdate budget iamconn w).1
                        = trace w ++ WriteId "iam-credential-report" :: evs).
  { unfold resourceAwsIamCredentialReportUpdate.
    destruct (resourceAwsIamCredentialReportRead budget iamconn
                (writeId "iam-credential-report" w)) as [w' res] eqn:E.
    apply Read_spec in E as (Hid & evs & _ & Hres). simpl in *. split; [done|].
    destruct res as [?|?| |];
      [destruct Hres as (flat & _ & ->)|destruct Hres as [_ ->]..];
      rewrite <- app_assoc; by eexists. }
  destruct Hupd as [Hid Htrace]. by split_and!.
Qed.

End Operations.

(** ** The operations on a service that is slow to answer *)

Lemma slowService_inProgress : inProgress (slowService 2) newWorld 2.
Proof.
  intros i Hi. exists "not ready". simpl. by rewrite bool_decide_eq_true_2.
Defined.

Lemma polling_loop_witness :
  (∃ w' flat, resourceAwsIamCredentialReportRead 5 (slowService 2) newWorld = (w', Ok ()) ∧
     d w' = Set_ (d newWorld) "report" (VList flat) ∧ getCalls w' = 3) ∧
  (∃ w', resourceAwsIamCredentialReportRead 2 (slowService 2) newWorld
         = (w', Err TimeoutError) ∧ getCalls w' = 2).
Proof.
  split.
  - destruct (polling_loop (slowService 2) newWorld 5 2 eq_refl slowService_inProgress)
      as (Hok & _).
    destruct (parseCsvCredentialReport sampleReport) as [report|e| |] eqn:E;
      [|vm_compute in E; discriminate E..].
    assert (Hlt : 2 < 5) by lia.
    destruct (Hok Hlt sampleReport report sampleSerials eq_refl E eq_refl)
      as (w' & report' & flat & Hread & _ & _ & Hd & Hcalls).
    exists w', flat. split_and!; [exact Hread|exact Hd|exact Hcalls].
  - destruct (polling_loop (slowService 2) newWorld 2 2 eq_refl slowService_inProgress)
      as (_ & Htimeout & _).
    destruct (Htimeout (le_n 2)) as (w' & Hread & _ & Hcalls).
    exists w'. split; [exact Hread|exact Hcalls].
Defined.

Lemma read_is_all_or_nothing_witness :
  ∃ w' evs, resourceAwsIamCredentialReportRead 2 (slowService 2) newWorld
            = (w', Err TimeoutError) ∧
    d w' = d newWorld ∧ trace w' = trace newWorld ++ evs ∧
    Forall (λ e, isWrite e = false) evs.
Proof.
  assert (Hread : resourceAwsIamCredentialReportRead 2 (slowService 2) newWorld
                  = (polls 2 (emit CallGenerateCredentialReport newWorld), Err TimeoutError))
    by (vm_compute; reflexivity).
  destruct (read_is_all_or_nothing (slowService 2) 2 newWorld _ _ Hread)
    as (_ & _ & evs & Hevs & Hd & Htrace).
  eexists _, evs. split_and!; [exact Hread|exact Hd|exact Htrace|exact Hevs].
Defined.

Lemma update_sets_constant_id_and_delete_is_noop_witness :
  Id (d (resourceAwsIamCredentialReportUpdate 2 (slowService 2) newWorld).1)
    = "iam-credential-report" ∧
  resourceAwsIamCredentialReportDelete (slowService 2) newWorld = (newWorld, Ok ()).
Proof.
  destruct (update_sets_constant_id_and_delete_is_noop (slowService 2) 2 newWorld)
    as (Hid & _ & _ & Hdel).
  split; [exact Hid|exact Hdel].
Defined.

(** * Further properties *)

(** ** Decoding is by column name *)

Lemma headerLoop_snoc headerLine k : ∀ i header,
  headerLoop i (headerLine ++ [k]) header
  = <[k := i + length headerLine]> (headerLoop i headerLine header).
Proof.
  induction headerLine as [|k' rest IH]; intros i header; simpl.
  - by rewrite Nat.add_0_r.
  - rewrite IH. by replace (S i + length rest) with (i + S (length rest)) by lia.
Qed.

Lemma byName_snoc headerLine line k x :
  length line = length headerLine →
  byName (headerLine ++ [k]) (line ++ [x]) = <[k := x]> (byName headerLine line).
Proof.
  intros Hlen. unfold byName.
  rewrite zip_with_app by done. simpl. by rewrite reverse_snoc.
Qed.

(** The cell that the decoder reads for a column of the header is the
    field of the last column of that name. *)
Lemma cell_byName headerLine : ∀ line c,
  length line = length headerLine → c ∈ headerLine →
  cell (headerLoop 0 headerLine ∅) line c = byName headerLine line !! c.
Proof.
  induction headerLine as [|k headerLine IH] using rev_ind; intros line c Hlen Hc.
  { by apply elem_of_nil in Hc. }
  destruct line as [|x line _] using rev_ind.
  { rewrite length_app in Hlen. simpl in Hlen. lia. }
  rewrite !length_app in Hlen. simpl in Hlen.
  assert (Hlen' : length line = length headerLine) by lia.
  rewrite byName_snoc by done. unfold cell, column.
  rewrite headerLoop_snoc. simpl.
  destruct (decide (k = c)) as [->|Hne].
  - rewrite !lookup_insert_eq. simpl.
    rewrite <- Hlen'. by rewrite list_lookup_middle.
  - rewrite !lookup_insert_ne by done.
    apply elem_of_app in Hc as [Hc|Hc]; [|apply list_elem_of_singleton in Hc; congruence].
    rewrite <- (IH line c Hlen' Hc). unfold cell, column.
    apply lookup_app_l. rewrite Hlen'.
    apply (column_lt headerLine c). destruct headerLine; [by apply elem_of_nil in Hc|].
    simpl. lia.
Qed.

(** The row of a line depends on the header and the line only through
    the cells of the eleven columns that the decoder reads. *)
Lemma makeRow_ext header1 line1 header2 line2 :
  (∀ c, c ∈ requiredColumns → cell header1 line1 c = cell header2 line2 c) →
  makeRow header1 line1 = makeRow header2 line2.
Proof.
  intros H. unfold makeRow.
  assert (Hin : ∀ c, bool_decide (c ∈ requiredColumns) = true →
                     cell header1 line1 c = cell header2 line2 c).
  { intros c Hc. apply H. by apply bool_decide_eq_true in Hc. }
  by rewrite !Hin by (vm_compute; reflexivity).
Qed.

Lemma makeRow_byName headerLine line :
  length line = length headerLine →
  requiredColumns ⊆ headerLine →
  makeRow (headerLoop 0 headerLine ∅) line = decodeByName (byName headerLine line).
Proof.
  intros Hlen Hsub. unfold makeRow, decodeByName.
  assert (Hin : ∀ c, bool_decide (c ∈ requiredColumns) = true →
                     cell (headerLoop 0 headerLine ∅) line c
                     = byName headerLine line !! c).
  { intros c Hc. apply cell_byName; [done|]. apply Hsub.
    by apply bool_decide_eq_true in Hc. }
  by rewrite !Hin by (vm_compute; reflexivity).
Qed.

(** X1.  Decoding is by name: when the header names all the columns that
    the decoder reads, the i-th row of a payload is the row given by the
    fields of the i-th record under these names, whatever the positions
    of the columns; of two columns of one name the later one is read. *)
Theorem decoding_is_by_name content headerLine lines :
  csvPayload content headerLine lines →
  requiredColumns ⊆ headerLine →
  ∃ rows, parseCsvCredentialReport content = Ok rows ∧
    length rows = length lines ∧
    ∀ i line, lines !! i = Some line →
      ∃ row, decodeByName (byName headerLine line) = Some row ∧
             rows !! i = Some (Some row).
Proof.
  intros Hpay Hsub.
  destruct (parse_payload _ _ _ Hpay) as (rows & Hp & Hlen & Hat).
  exists rows. split_and!; [done..|]. intros i line Hline.
  destruct Hpay as (rdr & Hh & Hl).
  destruct (reader_widths _ _ _ _ Hh Hl) as [_ Hwidth].
  rewrite Forall_lookup in Hwidth. specialize (Hwidth _ _ Hline). simpl in Hwidth.
  destruct (Hat _ _ Hline) as (row & Hrow & Hlook).
  exists row. split; [|done]. by rewrite <- makeRow_byName.
Qed.

Lemma sampleHeader_required : requiredColumns ⊆ sampleHeader.
Proof.
  intros c Hc. apply (bool_decide_unpack _).
  revert c Hc. apply Forall_forall. apply (bool_decide_unpack _). vm_compute. exact I.
Defined.

Lemma decoding_is_by_name_witness :
  ∃ rows, parseCsvCredentialReport sampleReport = Ok rows ∧
    length rows = length sampleLines ∧
    ∀ i line, sampleLines !! i = Some line →
      ∃ row, decodeByName (byName sampleHeader line) = Some row ∧
             rows !! i = Some (Some row).
Proof.
  apply (decoding_is_by_name sampleReport sampleHeader sampleLines).
  - exact sampleReport_payload.
  - exact sampleHeader_required.
Defined.

Lemma byName_permutation headerLine line headerLine' line' :
  length line = length headerLine → length line' = length headerLine' →
  zip headerLine' line' ≡ₚ zip headerLine line → NoDup headerLine →
  byName headerLine' line' = byName headerLine line.
Proof.
  intros Hlen Hlen' Hperm Hnodup. unfold byName.
  apply list_to_map_proper.
  - rewrite fmap_reverse, reverse_Permutation, Hperm, fst_zip by lia. done.
  - by rewrite !reverse_Permutation.
Qed.

(** X2.  The order of the columns does not matter: when the header has
    no name twice and names all the columns that the decoder reads,
    moving the columns of the header and of a record about in the same
    way leaves the row of the record as it was. *)
Theorem column_order_is_irrelevant headerLine line headerLine' line' :
  length line = length headerLine → length line' = length headerLine' →
  zip headerLine' line' ≡ₚ zip headerLine line →
  NoDup headerLine → requiredColumns ⊆ headerLine →
  makeRow (headerLoop 0 headerLine' ∅) line' = makeRow (headerLoop 0 headerLine ∅) line.
Proof.
  intros Hlen Hlen' Hperm Hnodup Hsub.
  assert (Hh : headerLine' ≡ₚ headerLine).
  { rewrite <- (fst_zip headerLine' line'), <- (fst_zip headerLine line) by lia.
    by rewrite Hperm. }
  rewrite !makeRow_byName; try done.
  - by rewrite (byName_permutation headerLine line headerLine' line').
  - intros c Hc. rewrite Hh. by apply Hsub.
Qed.

Lemma column_order_is_irrelevant_witness :
  Forall (λ line, makeRow (headerLoop 0 (reverse sampleHeader) ∅) (reverse line)
                  = makeRow (headerLoop 0 sampleHeader ∅) line) sampleLines.
Proof.
  apply Forall_cons_2; [|apply Forall_cons_2; [|apply Forall_nil_2]];
  (apply column_order_is_irrelevant;
    [reflexivity
    |reflexivity
    |etrans; [|apply reverse_Permutation]; vm_compute; reflexivity
    |apply (bool_decide_unpack _); vm_compute; exact I
    |exact sampleHeader_required]).
Defined.

Lemma byName_app headerLine line extra more c :
  length line = length headerLine → length more = length extra →
  c ∉ extra →
  byName (headerLine ++ extra) (line ++ more) !! c = byName headerLine line !! c.
Proof.
  intros Hlen Hlen' Hc. unfold byName.
  rewrite zip_with_app by done. rewrite reverse_app, list_to_map_app.
  apply lookup_union_r, not_elem_of_list_to_map_1.
  rewrite fmap_reverse, elem_of_reverse, fst_zip by lia. done.
Qed.

(** X3.  Columns that the decoder does not read are ignored: with a
    header that names all the columns that the decoder reads, further
    columns of other names after them, and their fields after the
    fields of a record, leave the row of the record as it was. *)
Theorem further_columns_are_ignored headerLine line extra more :
  length line = length headerLine → length more = length extra →
  requiredColumns ⊆ headerLine →
  (∀ c, c ∈ requiredColumns → c ∉ extra) →
  makeRow (headerLoop 0 (headerLine ++ extra) ∅) (line ++ more)
  = makeRow (headerLoop 0 headerLine ∅) line.
Proof.
  intros Hlen Hlen' Hsub Hextra. apply makeRow_ext. intros c Hc.
  rewrite !cell_byName.
  - by apply byName_app, Hextra.
  - done.
  - by apply Hsub.
  - rewrite !length_app. lia.
  - apply elem_of_app. left. by apply Hsub.
Qed.

Lemma further_columns_are_ignored_witness :
  Forall (λ line,
            makeRow (headerLoop 0 (sampleHeader ++ ["cert_1_active"; "cert_2_active"]) ∅)
              (line ++ ["false"; "false"])
            = makeRow (headerLoop 0 sampleHeader ∅) line) sampleLines.
Proof.
  apply Forall_cons_2; [|apply Forall_cons_2; [|apply Forall_nil_2]];
  (apply further_columns_are_ignored;
    [reflexivity
    |reflexivity
    |exact sampleHeader_required
    |apply Forall_forall; apply (bool_decide_unpack _); vm_compute; exact I]).
Defined.

(** ** Payloads that the decoder refuses *)

Lemma ReadAll_loop_render_app lines : ∀ fuel n records rest,
  Forall plainRecord lines →
  Forall (λ line : list string, length line = n) lines →
  0 < n →
  Csv.ReadAll_loop (length lines + fuel)
    {| Csv.r := render lines ++ rest; Csv.FieldsPerRecord := Z.of_nat n |} records
  = Csv.ReadAll_loop fuel {| Csv.r := rest; Csv.FieldsPerRecord := Z.of_nat n |}
      (records ++ lines).
Proof.
  induction lines as [|line lines IH]; intros fuel n records rest Hplain Hwidth Hn.
  - simpl. by rewrite app_nil_r.
  - apply Forall_cons in Hplain as [Hline Hplain].
    apply Forall_cons in Hwidth as [Hlen Hwidth].
    cbn [length Nat.add Csv.ReadAll_loop]. unfold render. rewrite fmap_cons.
    cbn [concat]. rewrite <- app_assoc.
    rewrite readRecord_record by done.
    unfold Csv.checkFieldCount.
    rewrite bool_decide_eq_true_2 by lia.
    rewrite (bool_decide_eq_false_2 (_ ≠ _)) by (rewrite Hlen; auto).
    cbn [andb fst snd]. fold (render lines).
    rewrite IH by done. by rewrite <- app_assoc.
Qed.

(** X4.  A record of another width than the header makes the parse fail:
    after a header and any number of records of the header's width, all
    of plain fields, a record with more or fewer fields ends the parse
    with the field-count error of the reader, and no row is returned,
    whatever follows the record. *)
Theorem ragged_record_fails headerLine lines bad rest :
  plainRecord headerLine → Forall plainRecord lines →
  Forall (λ line : list string, length line = length headerLine) lines →
  plainRecord bad → length bad ≠ length headerLine →
  parseCsvCredentialReport (render (headerLine :: lines) ++ renderRecord bad ++ rest)
  = Err (CsvError Csv.ErrFieldCount).
Proof.
  intros Hheader Hlines Hwidth Hbad Hne.
  assert (Hpos : 0 < length headerLine).
  { destruct Hheader as [_ H]. destruct headerLine; [done|simpl; lia]. }
  unfold parseCsvCredentialReport, Csv.Read, Csv.NewReader, render.
  rewrite fmap_cons. cbn [concat]. rewrite <- app_assoc.
  rewrite readRecord_record by done.
  change (Csv.checkFieldCount 0 headerLine None)
    with (@None Csv.error, Z.of_nat (length headerLine)).
  cbn [fst snd]. unfold Csv.ReadAll. cbn [Csv.r]. fold (render lines).
  pose proof (render_length lines) as Hrl.
  replace (S (length (render lines ++ renderRecord bad ++ rest)))
    with (length lines + S (length (render lines ++ renderRecord bad ++ rest)
                            - length lines))
    by (rewrite length_app; lia).
  rewrite ReadAll_loop_render_app by done.
  cbn [Csv.ReadAll_loop]. rewrite readRecord_record by done.
  unfold Csv.checkFieldCount.
  rewrite bool_decide_eq_true_2 by lia.
  rewrite (bool_decide_eq_true_2 (_ ≠ _)) by lia.
  done.
Qed.

Lemma ragged_record_fails_witness :
  parseCsvCredentialReport
    (render (sampleHeader :: sampleLines) ++ renderRecord ["bob"; "true"]
     ++ bytes_of_string "carol,")
  = Err (CsvError Csv.ErrFieldCount).
Proof.
  apply ragged_record_fails.
  - apply sample_plain.
  - apply sample_plain.
  - apply sample_plain.
  - apply (bool_decide_unpack _). vm_compute. exact I.
  - vm_compute. lia.
Defined.

Lemma nextLine_line_feeds n : ∀ fuel,
  n < fuel → Csv.nextLine fuel (replicate n Csv.LF) = Some ([], true, []).
Proof.
  induction n as [|n IH]; intros fuel Hfuel;
    (destruct fuel as [|fuel]; [lia|]); [done|].
  cbn [replicate Csv.nextLine].
  pose proof (readLine_line [] (replicate n Csv.LF)) as Hline.
  cbn [app] in Hline. rewrite Hline by apply not_elem_of_nil.
  simpl. apply IH. lia.
Qed.

(** X5.  A payload without a record is an error, not an empty report: on
    the empty payload, and on a payload of empty lines only, the decoder
    fails with the end-of-file error of the reader. *)
Theorem payload_without_record_fails n :
  parseCsvCredentialReport (replicate n Csv.LF) = Err (CsvError Csv.EOF).
Proof.
  unfold parseCsvCredentialReport, Csv.Read, Csv.readRecord, Csv.NewReader.
  cbn [Csv.r]. by rewrite nextLine_line_feeds by (rewrite length_replicate; lia).
Qed.

(** ** The rows of a parsed report *)

(** X6.  Every row of a parsed report is a row of its own with exactly
    two access keys and with [MfaVirtual] not set. *)
Theorem parsed_rows_have_two_keys content report :
  parseCsvCredentialReport content = Ok report →
  Forall (λ p, ∃ row, p = Some row ∧ length (AccessKeys row) = 2 ∧
                      MfaVirtual row = false) report.
Proof.
  intros Hp. destruct (parse_Ok_payload _ _ Hp) as (headerLine & lines & Hpay).
  destruct (parse_payload _ _ _ Hpay) as (report' & Hp' & Hlen & Hat).
  rewrite Hp in Hp'. injection Hp' as <-.
  apply Forall_lookup. intros j p Hj.
  destruct (lookup_lt_is_Some_2 lines j) as [line Hline];
    [apply lookup_lt_Some in Hj; lia|].
  destruct (Hat _ _ Hline) as (row & Hrow & Hrj).
  rewrite Hj in Hrj. injection Hrj as ->. exists row. split; [done|].
  unfold makeRow in Hrow.
  repeat match type of Hrow with
  | (cell ?h ?l ?c ≫= _) = Some _ =>
      destruct (cell h l c); simpl in Hrow; [|discriminate]
  end.
  by injection Hrow as <-.
Qed.

Lemma parsed_rows_have_two_keys_witness :
  ∃ report, parseCsvCredentialReport sampleReport = Ok report ∧
    Forall (λ p, ∃ row, p = Some row ∧ length (AccessKeys row) = 2 ∧
                        MfaVirtual row = false) report.
Proof.
  destruct (parseCsvCredentialReport sampleReport) as [report|e| |] eqn:E;
    [|vm_compute in E; discriminate E..].
  exists report. split; [reflexivity|].
  exact (parsed_rows_have_two_keys sampleReport report E).
Defined.

(** ** The serial numbers that the pattern accepts *)

(** X7.  The search for the serial-number pattern succeeds exactly on the
    ARNs of MFA devices, that is on [arn:aws:iam::], one or more decimal
    digits, [:mfa/] and a name without a line feed, with nothing before
    and nothing after; the submatch is the name, whole, and the search
    fails on every other text. *)
Theorem pattern_accepts_exactly_mfa_arns :
  (∀ account name,
     account ≠ EmptyString → allDigits account = true → noLineFeed name = true →
     Serial.FindStringSubmatch (arn account name) = Some [arn account name; name]) ∧
  (∀ s m, Serial.FindStringSubmatch s = Some m →
     ∃ account name, account ≠ EmptyString ∧ allDigits account = true ∧
       noLineFeed name = true ∧ s = arn account name ∧ m = [s; name]).
Proof.
  split.
  - intros account name Hne Hdigits Hname.
    apply FindStringSubmatch_spec. exists name. split; [|done]. by exists account.
  - intros s m Hm. apply FindStringSubmatch_spec in Hm as (name & Harn & ->).
    destruct Harn as (account & ? & ? & ? & ?). by exists account, name.
Qed.

Lemma pattern_accepts_exactly_mfa_arns_witness :
  Serial.FindStringSubmatch (arn "123456789012" "path/alice")
  = Some [arn "123456789012" "path/alice"; "path/alice"] ∧
  ∃ account name, "arn:aws:iam::42:mfa/" = arn account name ∧ name = EmptyString.
Proof.
  destruct pattern_accepts_exactly_mfa_arns as [Hfind Hshape].
  split.
  - apply Hfind; [done|vm_compute; reflexivity|vm_compute; reflexivity].
  - destruct (Hshape "arn:aws:iam::42:mfa/" ["arn:aws:iam::42:mfa/"; EmptyString])
      as (account & name & _ & _ & _ & Harn & Hm); [vm_compute; reflexivity|].
    exists account, name. split; [exact Harn|]. by injection Hm as ->.
Defined.

(** ** More on the enrichment *)

Lemma mark_idemp accounts row : mark accounts (mark accounts row) = mark accounts row.
Proof.
  unfold mark. destruct (accounts !! User row) eqn:E; simpl; [|by rewrite E].
  by rewrite E.
Qed.

(** X8.  Enriching twice is enriching once: the enrichment of an enriched
    report, with the same devices, changes nothing. *)
Theorem enrichment_is_idempotent devices (report report' : list (option ReportRow)) :
  enrich devices report = Some report' →
  enrich devices report' = Some report'.
Proof.
  unfold enrich. destruct (mfaLoop devices ∅) as [accounts|]; simpl; [|done].
  intros H. apply enrichLoop_Some in H as [-> Hall].
  apply Forall_is_Some_fmap in Hall as [rows ->].
  rewrite <- !list_fmap_compose.
  change ((λ p : option ReportRow, mark accounts <$> p) ∘ Some)
    with (Some ∘ mark accounts).
  rewrite (list_fmap_compose (mark accounts) Some), enrichLoop_rows.
  rewrite <- (list_fmap_compose (mark accounts) (mark accounts)).
  do 2 f_equal. apply list_fmap_ext. intros _ row _. apply mark_idemp.
Qed.

Lemma enrichment_is_idempotent_witness :
  enrich (deviceOf <$> sampleSerials)
    (Some <$> [sampleRow "<root_account>" true; sampleRow "alice" true;
               sampleRow "bob" false; sampleRow "carol" true])
  = Some (Some <$> [sampleRow "<root_account>" true; sampleRow "alice" true;
                    sampleRow "bob" false; sampleRow "carol" true]).
Proof.
  apply (enrichment_is_idempotent _ (Some <$> sampleRows)).
  vm_compute. reflexivity.
Defined.

(** The set of a listing, key by key. *)
Lemma mfaLoop_lookup ids accounts u :
  mfaLoop (deviceOf <$> ids) ∅ = Some accounts →
  accounts !! u = Some true ∧
    (∃ id name, id ∈ ids ∧ matchesArn id name ∧ u = reportName name)
  ∨ accounts !! u = None ∧
    ¬ (∃ id name, id ∈ ids ∧ matchesArn id name ∧ u = reportName name).
Proof.
  intros Hloop. destruct (mfaLoop_spec ids ∅) as (accounts' & Hloop' & Hacc).
  rewrite Hloop in Hloop'. injection Hloop' as <-.
  destruct (accounts !! u) as [b|] eqn:E.
  - left. assert (b = true) as ->.
    { eapply mfaLoop_true; [exact Hloop| |exact E].
      intros u' b'. by rewrite lookup_empty. }
    split; [done|]. destruct (proj1 (Hacc u)) as [H|H]; [by rewrite E| |done].
    rewrite lookup_empty in H. by destruct H.
  - right. split; [done|]. intros H.
    destruct (proj2 (Hacc u) (or_intror H)) as [b Hb]. congruence.
Qed.

(** X9.  The listing counts as a set: two listings with the same serial
    numbers, in whatever order and however often repeated, enrich every
    report alike. *)
Theorem enrichment_ignores_order_of_devices (ids1 ids2 : list string)
    (report : list (option ReportRow)) :
  (∀ id, id ∈ ids1 ↔ id ∈ ids2) →
  enrich (deviceOf <$> ids1) report = enrich (deviceOf <$> ids2) report.
Proof.
  intros Hsame. unfold enrich.
  destruct (mfaLoop_spec ids1 ∅) as (accounts1 & Hloop1 & _).
  destruct (mfaLoop_spec ids2 ∅) as (accounts2 & Hloop2 & _).
  rewrite Hloop1, Hloop2. simpl.
  replace accounts2 with accounts1; [done|].
  apply map_eq. intros u.
  destruct (mfaLoop_lookup ids1 accounts1 u Hloop1) as [[-> H1]|[-> H1]];
    destruct (mfaLoop_lookup ids2 accounts2 u Hloop2) as [[-> H2]|[-> H2]];
    try done.
  - destruct H2. destruct H1 as (id & name & Hin & Hm & Hu).
    exists id, name. by rewrite <- Hsame.
  - destruct H1. destruct H2 as (id & name & Hin & Hm & Hu).
    exists id, name. by rewrite Hsame.
Qed.

Lemma enrichment_ignores_order_of_devices_witness :
  enrich (deviceOf <$> sampleSerials) (Some <$> sampleRows)
  = enrich (deviceOf <$> (reverse sampleSerials ++ sampleSerials)) (Some <$> sampleRows).
Proof.
  apply enrichment_ignores_order_of_devices.
  intros id. rewrite elem_of_app, elem_of_reverse. tauto.
Defined.

Lemma mfaLoop_proper devices : ∀ accounts,
  is_Some (mfaLoop devices accounts) ↔ Forall properDevice devices.
Proof.
  induction devices as [|device devices IH]; intros accounts.
  { split; [by constructor|by eexists]. }
  rewrite Forall_cons. cbn -[Serial.FindStringSubmatch].
  destruct device as [[[serial|]]|]; cbn -[Serial.FindStringSubmatch].
  - assert (Hproper : properDevice (Some {| SerialNumber := Some serial |}))
      by (by exists serial).
    destruct (Serial.FindStringSubmatch serial) as [m|] eqn:E.
    + apply FindStringSubmatch_spec in E as (name & _ & ->).
      rewrite bool_decide_eq_true_2 by (simpl; lia).
      change ([serial; name] !! 1) with (Some name).
      cbn [mbind option_bind]. rewrite IH. tauto.
    + rewrite IH. tauto.
  - split; [by intros [? ?]|]. by intros [[serial [=]] _].
  - split; [by intros [? ?]|]. by intros [[serial [=]] _].
Qed.

Lemma enrichLoop_is_Some accounts (report : list (option ReportRow)) :
  is_Some (enrichLoop accounts report) ↔ Forall is_Some report.
Proof.
  split.
  - intros [report' H]. by apply enrichLoop_Some in H as [_ H].
  - intros H. apply Forall_is_Some_fmap in H as [rows ->].
    rewrite enrichLoop_rows. by eexists.
Qed.

Lemma flattenLoop_is_Some (report : list (option ReportRow)) : ∀ out,
  is_Some (flattenLoop report out) ↔ Forall is_Some report.
Proof.
  induction report as [|p report IH]; intros out; simpl.
  - split; [by constructor|by eexists].
  - rewrite Forall_cons. destruct p as [row|]; simpl.
    + rewrite IH. split; [by split|tauto].
    + split; [by intros [? ?]|]. by intros [[? ?] _].
Qed.

(** X10.  When the code panics on a nil pointer: the enrichment ends
    without panic exactly when no device of the listing is nil or has a
    nil serial number and no row of the report is nil, and the flattening
    exactly when no row of the report is nil. *)
Theorem nil_pointers_panic devices (report : list (option ReportRow)) :
  (is_Some (enrich devices report) ↔
     Forall properDevice devices ∧ Forall is_Some report) ∧
  (is_Some (flattenCredentialReport report) ↔ Forall is_Some report).
Proof.
  split; [|apply flattenLoop_is_Some].
  unfold enrich. rewrite <- (mfaLoop_proper devices ∅).
  destruct (mfaLoop devices ∅) as [accounts|]; simpl.
  - rewrite enrichLoop_is_Some. split; [by split|tauto].
  - split; [by intros [? ?]|]. by intros [[? ?] _].
Qed.

Lemma nil_pointers_panic_witness :
  enrich [deviceOf "arn:aws:iam::123456789012:mfa/alice";
          Some {| SerialNumber := None |}] (Some <$> sampleRows) = None ∧
  is_Some (flattenCredentialReport (Some <$> sampleRows)).
Proof.
  destruct (nil_pointers_panic
              [deviceOf "arn:aws:iam::123456789012:mfa/alice";
               Some {| SerialNumber := None |}] (Some <$> sampleRows))
    as [Henrich Hflatten].
  split.
  - destruct (enrich _ _) as [report|] eqn:E; [|done].
    destruct (proj1 Henrich (mk_is_Some _ _ eq_refl)) as [Hdev _].
    apply Forall_cons in Hdev as [_ Hdev]. apply Forall_cons in Hdev as [[s Hs] _].
    discriminate Hs.
  - apply Hflatten. apply Forall_fmap, Forall_forall. intros row _. by eexists.
Defined.

(** X11.  The name of the root device is never the name of a user: the
    set of the enrichment holds the name of the root account in its
    place, so a row whose user is called [root-account-mfa-device] is
    left as it is, whatever devices are listed. *)
Theorem user_named_like_root_device_is_not_marked (ids : list string)
    (rows : list ReportRow) i row :
  rows !! i = Some row →
  User row = "root-account-mfa-device" →
  ∃ report, enrich (deviceOf <$> ids) (Some <$> rows) = Some report ∧
            report !! i = Some (Some row).
Proof.
  intros Hi Huser. unfold enrich.
  destruct (mfaLoop_spec ids ∅) as (accounts & Hloop & _).
  rewrite Hloop. simpl. rewrite enrichLoop_rows. eexists. split; [done|].
  rewrite !list_lookup_fmap, Hi. simpl. do 2 f_equal.
  unfold mark.
  destruct (mfaLoop_lookup ids accounts (User row) Hloop) as [[_ H]|[-> _]]; [|done].
  destruct H as (id & name & _ & _ & Hname). rewrite Huser in Hname.
  unfold reportName in Hname. by case_decide.
Qed.

Lemma user_named_like_root_device_is_not_marked_witness :
  ∃ report,
    enrich (deviceOf <$> ["arn:aws:iam::123456789012:mfa/root-account-mfa-device"])
      (Some <$> [sampleRow "<root_account>" false;
                 sampleRow "root-account-mfa-device" false]) = Some report ∧
    report !! 1 = Some (Some (sampleRow "root-account-mfa-device" false)).
Proof.
  apply user_named_like_root_device_is_not_marked; reflexivity.
Defined.

(** ** The flattened report and the schema *)

Lemma flatten_rows (report : list (option ReportRow)) out :
  flattenCredentialReport report = Some out →
  ∃ rows, report = Some <$> rows ∧ out = flattenRow <$> rows.
Proof.
  intros H. unfold flattenCredentialReport in H.
  pose proof (proj1 (flattenLoop_is_Some report []) (mk_is_Some _ _ H)) as Hall.
  apply Forall_is_Some_fmap in Hall as [rows ->].
  rewrite flattenLoop_rows in H. injection H as <-. by exists rows.
Qed.

(** X12.  What the read stores fits the schema of the resource: the
    schema declares [report] as a list, every map of a flattened report
    has exactly the keys that the schema declares for an element of
    [report], with values of the declared types, and every map under
    [access_keys] has exactly the keys and types declared for an access
    key. *)
Theorem flattened_report_fits_schema (report : list (option ReportRow)) out :
  flattenCredentialReport report = Some out →
  ∃ rowSchema keySchema,
    Schema_ resourceAwsIamCredentialReport !! "report"
      = Some (mkSchema TypeList true true (Some rowSchema)) ∧
    rowSchema !! "access_keys" = Some (mkSchema TypeList false true (Some keySchema)) ∧
    Forall (λ m, hasShape rowSchema m ∧
                 ∃ keys, m !! "access_keys" = Some (VList keys) ∧
                         Forall (hasShape keySchema) keys) out.
Proof.
  intros H. apply flatten_rows in H as (rows & -> & ->).
  eexists _, _. split; [reflexivity|]. split; [reflexivity|].
  apply Forall_fmap, Forall_forall. intros row _. split.
  - reflexivity.
  - exists (flattenAccessKeys (AccessKeys row)). split; [reflexivity|].
    rewrite flattenAccessKeys_fmap. apply Forall_fmap, Forall_forall.
    intros key _. reflexivity.
Qed.

Lemma flattened_report_fits_schema_witness :
  ∃ out rowSchema,
    flattenCredentialReport (Some <$> sampleRows) = Some out ∧
    Schema_ resourceAwsIamCredentialReport !! "report"
      = Some (mkSchema TypeList true true (Some rowSchema)) ∧
    Forall (hasShape rowSchema) out.
Proof.
  destruct (flattenCredentialReport (Some <$> sampleRows)) as [out|] eqn:E;
    [|vm_compute in E; discriminate E].
  destruct (flattened_report_fits_schema _ _ E) as (rowSchema & keySchema & Hs & _ & Hall).
  exists out, rowSchema. split_and!; [reflexivity|exact Hs|].
  eapply Forall_impl; [exact Hall|]. by intros m [Hm _].
Defined.

(** ** One attempt of the read *)

(** X13.  The closure asks for another attempt in one case only: the get
    endpoint failed with an AWS error whose code is [ReportInProgress],
    letter for letter.  Every other failure of the get endpoint, and
    every failure of the parse or of the device listing, whatever its
    code, is final. *)
Theorem only_report_in_progress_is_retried iamconn w err :
  (attempt iamconn w).2 = Ok (Some (RetryableError err)) ↔
  ∃ message, err = AwsError "ReportInProgress" message ∧
             GetCredentialReport iamconn (getCalls w) = inl err.
Proof.
  unfold attempt. split.
  - destruct (GetCredentialReport iamconn (getCalls w)) as [e|content].
    + simpl. destruct e as [|code message| |]; simpl; try done.
      case_decide as Hcode; [|done]. intros [= <-]. subst code. by exists message.
    + destruct (parseCsvCredentialReport content) as [report|e| |]; try done.
      cbn [listCalls emit callGet].
      destruct (ListVirtualMFADevices iamconn (listCalls w)) as [e|devices]; [done|].
      destruct (enrich devices report) as [report'|]; [|done].
      by destruct (flattenCredentialReport report').
  - by intros (message & -> & ->).
Qed.

Lemma only_report_in_progress_is_retried_witness :
  (attempt (slowService 2) newWorld).2
  = Ok (Some (RetryableError (AwsError "ReportInProgress" "not ready"))).
Proof.
  apply only_report_in_progress_is_retried. exists "not ready". split; reflexivity.
Defined.

(** X14.  The order of the steps of one attempt.  The closure calls the
    get endpoint once, first.  When that fails it does nothing more.
    When it returns a payload, the payload is logged, also one that does
    not parse, and only for a payload that parses the device listing is
    called, once; the one write, of the field [report], comes after the
    listing, if at all. *)
Theorem attempt_steps_in_order iamconn w :
  ∃ evs, trace (attempt iamconn w).1 = trace w ++ CallGetCredentialReport :: evs ∧
    getCalls (attempt iamconn w).1 = S (getCalls w) ∧
    match GetCredentialReport iamconn (getCalls w) with
    | inl _ => evs = [] ∧ listCalls (attempt iamconn w).1 = listCalls w
    | inr content =>
        match parseCsvCredentialReport content with
        | Ok _ =>
            listCalls (attempt iamconn w).1 = S (listCalls w) ∧
            (evs = [LogPrintf content; CallListVirtualMFADevices] ∨
             ∃ flat, (attempt iamconn w).2 = Ok None ∧
                     evs = [LogPrintf content; CallListVirtualMFADevices;
                            WriteField "report" (VList flat)])
        | _ => evs = [LogPrintf content] ∧
               listCalls (attempt iamconn w).1 = listCalls w
        end
    end.
Proof.
  unfold attempt.
  destruct (GetCredentialReport iamconn (getCalls w)) as [e|content].
  { by exists []. }
  destruct (parseCsvCredentialReport content) as [report|e| |].
  2-4: exists [LogPrintf content]; simpl; by rewrite <- app_assoc.
  cbn [listCalls emit callGet].
  destruct (ListVirtualMFADevices iamconn (listCalls w)) as [e|devices].
  { exists [LogPrintf content; CallListVirtualMFADevices]. simpl.
    rewrite <- !app_assoc. split_and!; [done..|by left]. }
  destruct (enrich devices report) as [report'|];
    [destruct (flattenCredentialReport report') as [flat|]|].
  - exists [LogPrintf content; CallListVirtualMFADevices;
            WriteField "report" (VList flat)].
    simpl. rewrite <- !app_assoc. split_and!; [done..|]. right. by exists flat.
  - exists [LogPrintf content; CallListVirtualMFADevices]. simpl.
    rewrite <- !app_assoc. split_and!; [done..|by left].
  - exists [LogPrintf content; CallListVirtualMFADevices]. simpl.
    rewrite <- !app_assoc. split_and!; [done..|by left].
Qed.
